(** * Algorithmic utilities of [logica_programacao.py] and
      [resolucao_problemas.py]: shallow embedding and verified properties.

    Python values are embedded as follows.
    - [int] is unbounded, so it is [Z]; [//] and [%] with a positive divisor
      are [Z.div] and [Z.modulo] (both round towards minus infinity).
    - A [list] object lives in a store of list objects ([Heap]) where the
      code builds or aliases lists and a claim depends on it ([merge_sort]);
      elsewhere a list is its sequence of items.
    - [str] is a sequence of characters.  Where the code calls [str.lower]
      or [str.split], a character is a code point below 256 (type [ascii]),
      the range on which these are written out.  The password check is also
      given on every [str], as a list of code points ([Unicode]), with the
      table of the decimal digits of [re] as a parameter.
    - [dict] used as a table is a [gmap]; a [dict] whose iteration order is
      observed is an association list in insertion order; [set] is [gset].
    - A raised exception ([IndexError], [KeyError]) and an exhausted loop
      budget both make the result [None]; a returned value [v] is [Some v]. *)

From Stdlib Require Import ZArith Lia Ascii.
From Stdlib Require String.
From stdpp Require Import base option list list_numbers sorting gmap strings.

Local Open Scope Z_scope.

(** ** Python sequence primitives *)

Module Py.

(** [len(l)] *)
Definition len {A} (l : list A) : Z := Z.of_nat (length l).

(** Position meant by the index [i] of [l[i]]: a negative index counts from
    the end; outside [-len(l) .. len(l)-1] Python raises [IndexError]. *)
Definition index {A} (l : list A) (i : Z) : option nat :=
  if decide (0 <= i < len l) then Some (Z.to_nat i)
  else if decide (- len l <= i < 0) then Some (Z.to_nat (len l + i))
  else None.

(** [l[i]] *)
Definition getitem {A} (l : list A) (i : Z) : option A :=
  k ← index l i; l !! k.

(** [l[i] = v] *)
Definition setitem {A} (l : list A) (i : Z) (v : A) : option (list A) :=
  k ← index l i; Some (<[k := v]> l).

(** [for x in xs: s = body(x, s)], where the body may raise. *)
Fixpoint for_each {S} (xs : list Z) (body : Z → S → option S) (s : S)
    : option S :=
  match xs with
  | [] => Some s
  | x :: xs' => s' ← body x s; for_each xs' body s'
  end.

(** Normalisation of one slice bound, as [l[a:b]] does it: a negative bound
    is taken from the end, and every bound is clipped to [0 .. len(l)]. *)
Definition adjust {A} (l : list A) (i : Z) : nat :=
  if decide (i < 0) then Z.to_nat (Z.max 0 (len l + i))
  else Z.to_nat (Z.min i (len l)).

(** [l[lo:hi]], with [None] for an omitted bound.  The result is a new
    sequence. *)
Definition slice {A} (l : list A) (lo hi : option Z) : list A :=
  let a := from_option (adjust l) 0%nat lo in
  let b := from_option (adjust l) (length l) hi in
  take (b - a) (drop a l).

(** [range(a, b)] *)
Definition range (a b : Z) : list Z := seqZ a (b - a).

(** [sum(l)] *)
Definition sum (l : list Z) : Z := foldr Z.add 0 l.

End Py.

(** ** The store of list objects *)

(** A list object is named by its address; the store maps the addresses in
    use to the current items of their objects.  Addresses are handed out in
    order, so the store is the sequence of the objects made so far.  A
    computation takes the store and returns a value with the new store, or
    [None] when it raises. *)

Module Heap.

Definition loc : Type := nat.

Definition heap : Type := list (list Z).

Definition M (X : Type) : Type := heap → option (X * heap).

Definition ret {X} (x : X) : M X := λ h, Some (x, h).

Definition bind {X Y} (m : M X) (f : X → M Y) : M Y :=
  λ h, match m h with
       | Some (x, h') => f x h'
       | None => None
       end.

Definition raise {X} : M X := λ _, None.

Definition lift {X} (o : option X) : M X :=
  λ h, match o with
       | Some x => Some (x, h)
       | None => None
       end.

(** A new list object with the items [v]. *)
Definition new_list (v : list Z) : M loc := λ h, Some (length h, h ++ [v]).

(** The current items of the object at [l]. *)
Definition items (l : loc) : M (list Z) := λ h, lift (h !! l) h.

(** Replace the items of the object at [l]: the only way an object
    changes. *)
Definition update (l : loc) (v : list Z) : M unit :=
  λ h, match h !! l with
       | Some _ => Some (tt, <[l := v]> h)
       | None => None
       end.

Declare Scope heap_scope.
Delimit Scope heap_scope with heap.
Notation "x <- m ;; f" := (bind m (λ x, f))
  (at level 20, m at level 99, f at level 200, only parsing) : heap_scope.
Notation "m ;; f" := (bind m (λ _, f))
  (at level 100, f at level 200, only parsing, right associativity)
  : heap_scope.

Local Open Scope heap_scope.

(** [len(l)] *)
Definition list_len (l : loc) : M Z := v <- items l ;; ret (Py.len v).

(** [l[i]] *)
Definition list_getitem (l : loc) (i : Z) : M Z :=
  v <- items l ;; lift (Py.getitem v i).

(** [l[lo:hi]]: a new object. *)
Definition list_slice (l : loc) (lo hi : option Z) : M loc :=
  v <- items l ;; new_list (Py.slice v lo hi).

(** [l.append(x)]: changes [l] in place. *)
Definition list_append (l : loc) (x : Z) : M unit :=
  v <- items l ;; update l (v ++ [x]).

(** [l.extend(l2)]: changes [l] in place. *)
Definition list_extend (l l2 : loc) : M unit :=
  v <- items l ;; w <- items l2 ;; update l (v ++ w).

End Heap.

(** ** Python text primitives, on characters with a code point below 256 *)

Module PyStr.

Definition code (c : ascii) : nat := nat_of_ascii c.

Definition chars (s : string) : list ascii := String.list_ascii_of_string s.

(** [len(s)] *)
Definition len (s : string) : Z := Z.of_nat (String.length s).

Definition between (lo hi : nat) (c : ascii) : bool :=
  (lo <=? code c)%nat && (code c <=? hi)%nat.

(** [c.isspace()]: tab to carriage return, the four separators 28..31, the
    space, next-line (133) and the no-break space (160). *)
Definition isspace (c : ascii) : bool :=
  between 9 13 c || between 28 32 c
  || (code c =? 133)%nat || (code c =? 160)%nat.

(** [c.lower()]: A..Z, and the capital letters 192..222 but the
    multiplication sign 215, move 32 code points up. *)
Definition lower_char (c : ascii) : ascii :=
  if between 65 90 c || (between 192 222 c && negb (code c =? 215)%nat)
  then ascii_of_nat (code c + 32)
  else c.

(** [s.lower()] *)
Fixpoint lower (s : string) : string :=
  match s with
  | EmptyString => EmptyString
  | String c s' => String (lower_char c) (lower s')
  end.

(** [s.split()]: the maximal runs of characters that are not white space.
    [cur] is the run being read. *)
Fixpoint split_from (cur : string) (s : string) : list string :=
  match s with
  | EmptyString => if decide (cur = EmptyString) then [] else [cur]
  | String c s' =>
      if isspace c then
        if decide (cur = EmptyString) then split_from EmptyString s'
        else cur :: split_from EmptyString s'
      else split_from (cur +:+ String c EmptyString) s'
  end.

Definition split (s : string) : list string := split_from EmptyString s.

(** Truth value of [re.search(r'[...]', s)] for a pattern that is one
    character class: some character of [s] is in the class. *)
Definition re_search (classe : ascii → bool) (s : string) : bool :=
  existsb classe (chars s).

(** The class [[A-Z]]. *)
Definition classe_maiuscula : ascii → bool := between 65 90.

(** The class [[a-z]]. *)
Definition classe_minuscula : ascii → bool := between 97 122.

(** The class [\d]: below code point 256 the decimal digits are 0..9. *)
Definition classe_digito : ascii → bool := between 48 57.

End PyStr.

(** ** Regular expressions of the [re] module *)

(** The patterns of this repository are built from character classes,
    concatenation and repetition only, so [re] finds a match exactly when the
    text is in the language of the pattern.  [coincide] decides that by
    derivatives. *)

Module Re.

Inductive regex : Type :=
  | Vazio
  | Eps
  | Classe (p : ascii → bool)
  | Cat (r1 r2 : regex)
  | Alt (r1 r2 : regex)
  | Estrela (r : regex).

(** [r+] *)
Definition mais (r : regex) : regex := Cat r (Estrela r).

(** [r{2,}] *)
Definition pelo_menos_2 (r : regex) : regex := Cat r (Cat r (Estrela r)).

(** The language of a pattern. *)
Inductive lang : regex → list ascii → Prop :=
  | lang_eps : lang Eps []
  | lang_classe p c : p c = true → lang (Classe p) [c]
  | lang_cat r1 r2 s1 s2 :
      lang r1 s1 → lang r2 s2 → lang (Cat r1 r2) (s1 ++ s2)
  | lang_alt_l r1 r2 s : lang r1 s → lang (Alt r1 r2) s
  | lang_alt_r r1 r2 s : lang r2 s → lang (Alt r1 r2) s
  | lang_estrela_nil r : lang (Estrela r) []
  | lang_estrela_cons r s1 s2 :
      lang r s1 → lang (Estrela r) s2 → lang (Estrela r) (s1 ++ s2).

Fixpoint anulavel (r : regex) : bool :=
  match r with
  | Vazio => false
  | Eps => true
  | Classe _ => false
  | Cat r1 r2 => anulavel r1 && anulavel r2
  | Alt r1 r2 => anulavel r1 || anulavel r2
  | Estrela _ => true
  end.

Fixpoint derivada (c : ascii) (r : regex) : regex :=
  match r with
  | Vazio => Vazio
  | Eps => Vazio
  | Classe p => if p c then Eps else Vazio
  | Cat r1 r2 =>
      if anulavel r1
      then Alt (Cat (derivada c r1) r2) (derivada c r2)
      else Cat (derivada c r1) r2
  | Alt r1 r2 => Alt (derivada c r1) (derivada c r2)
  | Estrela r' => Cat (derivada c r') (Estrela r')
  end.

(** The whole of [s] is in the language of [r]. *)
Fixpoint coincide (r : regex) (s : list ascii) : bool :=
  match s with
  | [] => anulavel r
  | c :: s' => coincide (derivada c r) s'
  end.

(** Truth value of [re.match('^' + r + '$', s)]: [$] matches at the end of
    the text and also just before a newline that ends the text. *)
Definition match_ancorado (r : regex) (s : list ascii) : bool :=
  coincide r s
  || match last s with
     | Some c => bool_decide (c = ascii_of_nat 10) && coincide r (removelast s)
     | None => false
     end.

End Re.

(** ** [logica_programacao.py] *)

Module Logica.

(** *** [busca_binaria] *)

(** The [while esquerda <= direita] loop; one unit of [fuel] per test of
    the loop condition. *)
Fixpoint busca_binaria_loop (fuel : nat) (lista : list Z) (alvo : Z)
    (esquerda direita : Z) : option Z :=
  match fuel with
  | O => None
  | S fuel' =>
      if decide (esquerda <= direita) then
        let meio := (esquerda + direita) `div` 2 in
        x ← Py.getitem lista meio;
        if decide (x = alvo) then Some meio
        else
          y ← Py.getitem lista meio;
          if decide (y < alvo)
          then busca_binaria_loop fuel' lista alvo (meio + 1) direita
          else busca_binaria_loop fuel' lista alvo esquerda (meio - 1)
      else Some (-1)
  end.

(** The interval halves at each round, so [len(lista) + 1] tests are more
    than the loop can make. *)
Definition busca_binaria (lista : list Z) (alvo : Z) : option Z :=
  busca_binaria_loop (S (length lista)) lista alvo 0 (Py.len lista - 1).

(** *** [merge_sort] and [mesclar] *)

Section MergeSort.
Import Heap.
Local Open Scope heap_scope.

(** The [while i < len(esquerda) and j < len(direita)] loop of [mesclar];
    it returns the final [i] and [j].  One unit of [fuel] per test of the
    loop condition. *)
Fixpoint mesclar_loop (fuel : nat) (esquerda direita resultado : loc)
    (i j : Z) : M (Z * Z) :=
  match fuel with
  | O => raise
  | S fuel' =>
      n1 <- list_len esquerda ;;
      if decide (i < n1) then
        n2 <- list_len direita ;;
        if decide (j < n2) then
          x <- list_getitem esquerda i ;;
          y <- list_getitem direita j ;;
          if decide (x <= y) then
            x' <- list_getitem esquerda i ;;
            list_append resultado x' ;;
            mesclar_loop fuel' esquerda direita resultado (i + 1) j
          else
            y' <- list_getitem direita j ;;
            list_append resultado y' ;;
            mesclar_loop fuel' esquerda direita resultado i (j + 1)
        else ret (i, j)
      else ret (i, j)
  end.

Definition mesclar (fuel : nat) (esquerda direita : loc) : M loc :=
  resultado <- new_list [] ;;
  ij <- mesclar_loop fuel esquerda direita resultado 0 0 ;;
  resto1 <- list_slice esquerda (Some ij.1) None ;;
  list_extend resultado resto1 ;;
  resto2 <- list_slice direita (Some ij.2) None ;;
  list_extend resultado resto2 ;;
  ret resultado.

(** [fuel] bounds the depth of the recursion, and at each level the rounds
    of the merge loop. *)
Fixpoint merge_sort (fuel : nat) (lista : loc) : M loc :=
  match fuel with
  | O => raise
  | S fuel' =>
      n <- list_len lista ;;
      if decide (n <= 1) then ret lista
      else
        n' <- list_len lista ;;
        let meio := n' `div` 2 in
        metade1 <- list_slice lista None (Some meio) ;;
        esquerda <- merge_sort fuel' metade1 ;;
        metade2 <- list_slice lista (Some meio) None ;;
        direita <- merge_sort fuel' metade2 ;;
        mesclar fuel esquerda direita
  end.

End MergeSort.

(** *** [fibonacci] *)

(** The body of [fibonacci] once [memo] is a dictionary.  The dictionary is
    one shared object, mutated by the calls: it is threaded through them.
    [fuel] bounds the depth of the recursion. *)
Fixpoint fibonacci_memo (fuel : nat) (n : Z) (memo : gmap Z Z)
    : option (Z * gmap Z Z) :=
  match fuel with
  | O => None
  | S fuel' =>
      match memo !! n with
      | Some v => Some (v, memo)
      | None =>
          if decide (n <= 1) then Some (n, memo)
          else
            '(a, memo1) ← fibonacci_memo fuel' (n - 1) memo;
            '(b, memo2) ← fibonacci_memo fuel' (n - 2) memo1;
            let memo3 := <[n := a + b]> memo2 in
            v ← memo3 !! n;
            Some (v, memo3)
      end
  end.

(** [fibonacci(n, memo=None)]: a call without [memo] starts from a new
    empty dictionary. *)
Definition fibonacci (fuel : nat) (n : Z) (memo : option (gmap Z Z))
    : option (Z * gmap Z Z) :=
  fibonacci_memo fuel n (default ∅ memo).

(** *** [operacoes_conjuntos] *)

(** Python's [a ^ b] on sets. *)
Definition set_xor (a b : gset Z) : gset Z := (a ∖ b) ∪ (b ∖ a).

Definition operacoes_conjuntos (conjunto_a conjunto_b : gset Z)
    : gmap string (gset Z) :=
  <["diferenca_simetrica" := set_xor conjunto_a conjunto_b]>
  (<["diferenca" := conjunto_a ∖ conjunto_b]>
  (<["interseccao" := conjunto_a ∩ conjunto_b]>
  (<["uniao" := conjunto_a ∪ conjunto_b]> ∅))).

(** *** [contar_frequencia] and [top_n_palavras] *)

(** The dictionary [frequencia] is iterated by [items()], which follows the
    order in which the keys were first inserted: it is an association list
    in that order. *)

(** [d.get(k, padrao)] *)
Fixpoint dict_get (k : string) (padrao : Z) (d : list (string * Z)) : Z :=
  match d with
  | [] => padrao
  | (k', v) :: d' => if decide (k' = k) then v else dict_get k padrao d'
  end.

(** [d[k] = v]: an existing key keeps its place, a new key goes last. *)
Fixpoint dict_set (k : string) (v : Z) (d : list (string * Z))
    : list (string * Z) :=
  match d with
  | [] => [(k, v)]
  | (k', v') :: d' =>
      if decide (k' = k) then (k', v) :: d' else (k', v') :: dict_set k v d'
  end.

Definition contar_frequencia (texto : string) : list (string * Z) :=
  let palavras := PyStr.split (PyStr.lower texto) in
  foldl (λ frequencia palavra,
           dict_set palavra (dict_get palavra 0 frequencia + 1) frequencia)
        [] palavras.

(** One step of a stable sort by decreasing count: [x], which came before
    every item of [l], goes in front of the first item whose count is not
    greater than its own. *)
Fixpoint insert_desc (x : string * Z) (l : list (string * Z))
    : list (string * Z) :=
  match l with
  | [] => [x]
  | y :: l' => if decide (x.2 < y.2) then y :: insert_desc x l' else x :: l
  end.

(** [sorted(items, key=lambda x: x[1], reverse=True)]: [sorted] is stable,
    and with [reverse=True] items of equal count still keep their order. *)
Definition sorted_by_count_desc (items : list (string * Z))
    : list (string * Z) :=
  foldr insert_desc [] items.

Definition top_n_palavras (texto : string) (n : Z) : list (string * Z) :=
  let frequencia := contar_frequencia texto in
  Py.slice (sorted_by_count_desc frequencia) None (Some n).

(** *** [remover_duplicatas] *)

(** Body of the [for] loop, on the pair of [visto] and [resultado]. *)
Definition remover_duplicatas_passo (estado : gset Z * list Z) (elemento : Z)
    : gset Z * list Z :=
  let '(visto, resultado) := estado in
  if decide (elemento ∉ visto)
  then ({[elemento]} ∪ visto, resultado ++ [elemento])
  else (visto, resultado).

Definition remover_duplicatas (lista : list Z) : list Z :=
  (foldl remover_duplicatas_passo (∅, []) lista).2.

(** *** [encontrar_pares] *)

(** Body of the [for] loop, on the pair of [pares] and [visto]. *)
Definition encontrar_pares_passo (alvo : Z) (estado : list (Z * Z) * gset Z)
    (num : Z) : list (Z * Z) * gset Z :=
  let '(pares, visto) := estado in
  let complemento := alvo - num in
  let pares :=
    if decide (complemento ∈ visto)
    then pares ++ [(Z.min num complemento, Z.max num complemento)]
    else pares in
  (pares, {[num]} ∪ visto).

(** The list [pares] when the loop ends. *)
Definition encontrar_pares_lista (lista : list Z) (alvo : Z) : list (Z * Z) :=
  (foldl (encontrar_pares_passo alvo) ([], ∅) lista).1.

(** The result is [list(set(pares))]: the pairs of [pares] without
    repetition, in an order that Python leaves to the hashing of the set.
    It is returned here as the set itself. *)
Definition encontrar_pares (lista : list Z) (alvo : Z) : gset (Z * Z) :=
  list_to_set (encontrar_pares_lista lista alvo).

End Logica.

(** ** [resolucao_problemas.py] *)

Module Resolucao.

(** *** Divisors, perfect and amicable numbers *)

Definition encontrar_divisores (numero : Z) : list Z :=
  filter (λ i, numero `mod` i = 0) (Py.range 1 numero).

Definition eh_numero_perfeito (numero : Z) : bool :=
  bool_decide (numero = Py.sum (encontrar_divisores numero)).

Definition sao_numeros_amigos (a b : Z) : bool :=
  let soma_divisores_a := Py.sum (encontrar_divisores a) in
  let soma_divisores_b := Py.sum (encontrar_divisores b) in
  bool_decide (soma_divisores_a = b) && bool_decide (soma_divisores_b = a).

(** *** [validar_senha_forte] *)

(** The class of special characters of the last check: the thirteen
    characters of the first literal, the double quote (code 34), and the six
    characters of the second literal. *)
Definition especiais : list ascii :=
  PyStr.chars "!@#$%^&*(),.?" ++ [ascii_of_nat 34] ++ PyStr.chars ":{}|<>".

Definition classe_especial (c : ascii) : bool := bool_decide (c ∈ especiais).

Definition msg_minimo : string := "❌ Mínimo 8 caracteres".
Definition msg_maiuscula : string := "❌ Falta letra maiúscula".
Definition msg_minuscula : string := "❌ Falta letra minúscula".
Definition msg_numero : string := "❌ Falta número".
Definition msg_especial : string := "❌ Falta caractere especial".

Definition validar_senha_forte (senha : string) : bool * list string :=
  let problemas := [] in
  let problemas :=
    if bool_decide (PyStr.len senha < 8)
    then problemas ++ [msg_minimo] else problemas in
  let problemas :=
    if negb (PyStr.re_search PyStr.classe_maiuscula senha)
    then problemas ++ [msg_maiuscula] else problemas in
  let problemas :=
    if negb (PyStr.re_search PyStr.classe_minuscula senha)
    then problemas ++ [msg_minuscula] else problemas in
  let problemas :=
    if negb (PyStr.re_search PyStr.classe_digito senha)
    then problemas ++ [msg_numero] else problemas in
  let problemas :=
    if negb (PyStr.re_search classe_especial senha)
    then problemas ++ [msg_especial] else problemas in
  (bool_decide (Py.len problemas = 0), problemas).

(** *** [mdc_sequencias] *)

Section Mdc.
Context {A : Type} `{EqDecision A}.

(** [dp[i][j]] *)
Definition dp_get (dp : list (list Z)) (i j : Z) : option Z :=
  row ← Py.getitem dp i; Py.getitem row j.

(** [dp[i][j] = v]: the row object [dp[i]] is updated in place.  The rows
    were built one by one by the comprehension, so no two of them are the
    same object and the update shows in row [i] only. *)
Definition dp_set (dp : list (list Z)) (i j : Z) (v : Z)
    : option (list (list Z)) :=
  row ← Py.getitem dp i;
  row' ← Py.setitem row j v;
  Py.setitem dp i row'.

(** Body of the two nested [for] loops. *)
Definition mdc_cell (seq1 seq2 : list A) (i j : Z) (dp : list (list Z))
    : option (list (list Z)) :=
  a ← Py.getitem seq1 (i - 1);
  b ← Py.getitem seq2 (j - 1);
  if decide (a = b) then
    v ← dp_get dp (i - 1) (j - 1);
    dp_set dp i j (v + 1)
  else
    x ← dp_get dp (i - 1) j;
    y ← dp_get dp i (j - 1);
    dp_set dp i j (Z.max x y).

(** The table after the two nested loops. *)
Definition mdc_table (seq1 seq2 : list A) : option (list (list Z)) :=
  let m := Py.len seq1 in
  let n := Py.len seq2 in
  let dp := replicate (Z.to_nat (m + 1)) (replicate (Z.to_nat (n + 1)) 0) in
  Py.for_each (Py.range 1 (m + 1))
    (λ i dp, Py.for_each (Py.range 1 (n + 1)) (λ j dp, mdc_cell seq1 seq2 i j dp) dp)
    dp.

(** The [while i > 0 and j > 0] loop that rebuilds the subsequence; one
    unit of [fuel] per test of the loop condition. *)
Fixpoint mdc_reconstruir (fuel : nat) (seq1 seq2 : list A)
    (dp : list (list Z)) (i j : Z) (resultado : list A) : option (list A) :=
  match fuel with
  | O => None
  | S fuel' =>
      if decide (i > 0 ∧ j > 0) then
        a ← Py.getitem seq1 (i - 1);
        b ← Py.getitem seq2 (j - 1);
        if decide (a = b) then
          mdc_reconstruir fuel' seq1 seq2 dp (i - 1) (j - 1) (resultado ++ [a])
        else
          x ← dp_get dp (i - 1) j;
          y ← dp_get dp i (j - 1);
          if decide (x > y)
          then mdc_reconstruir fuel' seq1 seq2 dp (i - 1) j resultado
          else mdc_reconstruir fuel' seq1 seq2 dp i (j - 1) resultado
      else Some resultado
  end.

(** Each round of the last loop lowers [i] or [j], so [m + n + 1] tests are
    all it can make. *)
Definition mdc_sequencias (seq1 seq2 : list A) : option (list A) :=
  dp ← mdc_table seq1 seq2;
  resultado ← mdc_reconstruir (S (length seq1 + length seq2)) seq1 seq2 dp
                 (Py.len seq1) (Py.len seq2) [];
  Some (reverse resultado).

End Mdc.

(** *** [validar_email] *)

Definition classe_letra (c : ascii) : bool :=
  PyStr.between 97 122 c || PyStr.between 65 90 c.

(** The class of the local part: letters, digits and [._%+-]. *)
Definition classe_usuario (c : ascii) : bool :=
  classe_letra c || PyStr.between 48 57 c
  || bool_decide (c ∈ PyStr.chars "._%+-").

(** The class of the domain: letters, digits, dot and hyphen. *)
Definition classe_dominio (c : ascii) : bool :=
  classe_letra c || PyStr.between 48 57 c
  || bool_decide (c ∈ PyStr.chars ".-").

Definition classe_arroba (c : ascii) : bool := bool_decide (c = "@"%char).

Definition classe_ponto (c : ascii) : bool := bool_decide (c = "."%char).

(** The pattern between its two anchors. *)
Definition padrao_email : Re.regex :=
  Re.Cat (Re.mais (Re.Classe classe_usuario))
  (Re.Cat (Re.Classe classe_arroba)
  (Re.Cat (Re.mais (Re.Classe classe_dominio))
  (Re.Cat (Re.Classe classe_ponto)
          (Re.pelo_menos_2 (Re.Classe classe_letra))))).

Definition validar_email (email : string) : bool :=
  Re.match_ancorado padrao_email (PyStr.chars email).

(** *** [eh_palindromo] *)

(** The class [[a-z0-9]]. *)
Definition classe_alfanumerica (c : ascii) : bool :=
  PyStr.between 97 122 c || PyStr.between 48 57 c.

(** [re.sub] with the negated class and the empty replacement deletes every
    character outside [[a-z0-9]]. *)
Definition eh_palindromo (texto : string) : bool :=
  let texto_limpo :=
    filter (λ c, classe_alfanumerica c = true)
           (PyStr.chars (PyStr.lower texto)) in
  bool_decide (texto_limpo = reverse texto_limpo).

(** *** [balanceamento_parenteses] *)

(** The dictionary [pares]. *)
Definition pares : gmap ascii ascii :=
  <["{"%char := "}"%char]> (<["["%char := "]"%char]>
    (<["("%char := ")"%char]> ∅)).

(** [char in pares.values()] *)
Definition em_valores (char : ascii) : bool :=
  bool_decide (char ∈ (map_to_list pares).*2).

(** The [for] loop over the characters, with the stack [pilha] (its top is
    its last item).  [Some b] is the returned value, [None] a [KeyError]. *)
Fixpoint balanceamento_loop (expressao : list ascii) (pilha : list ascii)
    : option bool :=
  match expressao with
  | [] => Some (bool_decide (Py.len pilha = 0))
  | char :: resto =>
      if bool_decide (is_Some (pares !! char)) then
        balanceamento_loop resto (pilha ++ [char])
      else if em_valores char then
        match last pilha with
        | None => Some false
        | Some topo =>
            fecha ← pares !! topo;
            if bool_decide (fecha ≠ char) then Some false
            else balanceamento_loop resto (removelast pilha)
        end
      else balanceamento_loop resto pilha
  end.

Definition balanceamento_parenteses (expressao : string) : option bool :=
  balanceamento_loop (PyStr.chars expressao) [].

(** *** [rotacionar_array] *)

Definition rotacionar_array (array : list Z) (posicoes : Z) : list Z :=
  if bool_decide (Py.len array = 0) then array
  else
    let posicoes := posicoes `mod` Py.len array in
    Py.slice array (Some (- posicoes)) None
      ++ Py.slice array None (Some (- posicoes)).

End Resolucao.

(** ** Python text as the sequence of its code points *)

Module Unicode.

(** [ord(c)] of a character below 256. *)
Definition codigo (c : ascii) : Z := Z.of_nat (nat_of_ascii c).

(** The code points of a text whose characters are below 256. *)
Definition de_string (s : string) : list Z := codigo <$> PyStr.chars s.

(** A class [[lo-hi]] given by its two ends. *)
Definition entre (lo hi : Z) (c : Z) : bool := bool_decide (lo <= c <= hi).

(** Truth value of [re.search(r'[...]', s)] for a pattern that is one
    character class: some character of [s] is in the class. *)
Definition re_search (classe : Z → bool) (s : list Z) : bool :=
  existsb classe s.

End Unicode.

(** ** [validar_senha_forte] on every [str] *)

Module ResolucaoUnicode.

(** The special characters of the last check, by code point; 34 is the
    double quote. *)
Definition especiais : list Z :=
  Unicode.de_string "!@#$%^&*(),.?" ++ [34] ++ Unicode.de_string ":{}|<>".

Definition classe_especial (c : Z) : bool := bool_decide (c ∈ especiais).

Section Senha.

(** The class [\d] of [re] on a [str] holds the decimal digits of the
    Unicode database of the interpreter (category Nd: 0..9 and the digits of
    the other scripts).  That table is not part of the repository: it is a
    parameter. *)
Variable digito_decimal : Z → bool.

Definition validar_senha_forte (senha : list Z) : bool * list string :=
  let problemas := [] in
  let problemas :=
    if bool_decide (Py.len senha < 8)
    then problemas ++ [Resolucao.msg_minimo] else problemas in
  let problemas :=
    if negb (Unicode.re_search (Unicode.entre 65 90) senha)
    then problemas ++ [Resolucao.msg_maiuscula] else problemas in
  let problemas :=
    if negb (Unicode.re_search (Unicode.entre 97 122) senha)
    then problemas ++ [Resolucao.msg_minuscula] else problemas in
  let problemas :=
    if negb (Unicode.re_search digito_decimal senha)
    then problemas ++ [Resolucao.msg_numero] else problemas in
  let problemas :=
    if negb (Unicode.re_search classe_especial senha)
    then problemas ++ [Resolucao.msg_especial] else problemas in
  (bool_decide (Py.len problemas = 0), problemas).

End Senha.

End ResolucaoUnicode.

(** ** Reference definitions, written from the specification's words *)

Module Ref.

(** F(0)=0, F(1)=1, F(n)=F(n-1)+F(n-2) for n>=2. *)
Fixpoint fib (n : nat) : Z :=
  match n with
  | O => 0
  | S p => match p with
           | O => 1
           | S q => fib p + fib q
           end
  end.

(** Glossary: a proper divisor of n is a positive divisor of n strictly
    less than n. *)
Definition proper_divisor (d n : Z) : Prop := 0 < d < n ∧ (d | n).

(** n is perfect when it equals the sum of its proper divisors, each
    counted once. *)
Definition perfect (n : Z) : Prop :=
  ∃ ds : list Z,
    NoDup ds ∧ (∀ d, d ∈ ds ↔ proper_divisor d n) ∧ n = Py.sum ds.

(** Rotating right by one position: the last item becomes the first. *)
Definition rotate_right1 {A} (l : list A) : list A :=
  match last l with
  | Some x => x :: removelast l
  | None => []
  end.

(** Rotating right by [r] positions. *)
Definition right_rotation {A} (r : nat) (l : list A) : list A :=
  Nat.iter r rotate_right1 l.

(** The five reasons of the password check, in their fixed order. *)
Definition razoes : list string :=
  [Resolucao.msg_minimo; Resolucao.msg_maiuscula; Resolucao.msg_minuscula;
   Resolucao.msg_numero; Resolucao.msg_especial].

(** Some character of [s] has its code point within [lo .. hi]. *)
Definition has_char_between (lo hi : nat) (s : string) : Prop :=
  ∃ c, c ∈ PyStr.chars s ∧ (lo <= PyStr.code c <= hi)%nat.

(** Some character of [s] is one of the special characters. *)
Definition has_special (s : string) : Prop :=
  ∃ c, c ∈ PyStr.chars s ∧ c ∈ Resolucao.especiais.

(** [s] is the sum of the proper divisors of [n], each counted once. *)
Definition soma_dos_divisores (n s : Z) : Prop :=
  ∃ ds : list Z,
    NoDup ds ∧ (∀ d, d ∈ ds ↔ proper_divisor d n) ∧ s = Py.sum ds.

(** Each distinct item of a list once, in the order of first occurrence. *)
Fixpoint first_occurrences {A} `{EqDecision A} (l : list A) : list A :=
  match l with
  | [] => []
  | x :: l' => x :: filter (λ y, y ≠ x) (first_occurrences l')
  end.

(** Number of occurrences of [x] in [l]. *)
Definition occurrences {A} `{EqDecision A} (x : A) (l : list A) : Z :=
  Z.of_nat (length (filter (λ y, y = x) l)).

(** Ranking order of the word counts: the count does not increase. *)
Definition by_count_desc (x y : string * Z) : Prop := y.2 <= x.2.

(** An address as the pattern of [validar_email] reads it: a non-empty local
    part, an at sign, a non-empty domain, a dot, and at least two letters. *)
Definition endereco (s : list ascii) : Prop :=
  ∃ usuario dominio extensao,
    s = usuario ++ "@"%char :: dominio ++ "."%char :: extensao ∧
    usuario ≠ [] ∧ Forall (λ c, Resolucao.classe_usuario c = true) usuario ∧
    dominio ≠ [] ∧ Forall (λ c, Resolucao.classe_dominio c = true) dominio ∧
    (2 <= length extensao)%nat ∧
    Forall (λ c, Resolucao.classe_letra c = true) extensao.

(** The three pairs of brackets. *)
Definition par_de_colchetes (o c : ascii) : Prop :=
  (o = "("%char ∧ c = ")"%char) ∨ (o = "["%char ∧ c = "]"%char)
  ∨ (o = "{"%char ∧ c = "}"%char).

(** A character that is one of the six brackets. *)
Definition colchete (c : ascii) : Prop :=
  c ∈ PyStr.chars "()[]{}".

(** Well-bracketed sequences of brackets: the empty sequence, a
    well-bracketed sequence inside a pair, two of them side by side. *)
Inductive balanceada : list ascii → Prop :=
  | balanceada_nil : balanceada []
  | balanceada_par o c w :
      par_de_colchetes o c → balanceada w → balanceada (o :: w ++ [c])
  | balanceada_app w1 w2 :
      balanceada w1 → balanceada w2 → balanceada (w1 ++ w2).

End Ref.

(** ** Invariants used by the proofs *)

(** Every entry of the [fibonacci] dictionary is a Fibonacci number at its
    own index. *)
Definition memo_ok (memo : gmap Z Z) : Prop :=
  ∀ k v, memo !! k = Some v → 0 <= k ∧ v = Ref.fib (Z.to_nat k).

Section MdcInvariants.
Context {A : Type} `{EqDecision A}.

(** Length of a longest common subsequence of the first [i] items of [s1]
    and the first [j] items of [s2], by the recurrence of the table. *)
Fixpoint lcs_len (s1 s2 : list A) (i : nat) : nat → Z :=
  fix go (j : nat) : Z :=
    match i, j with
    | S i', S j' =>
        match s1 !! i', s2 !! j' with
        | Some a, Some b =>
            if decide (a = b) then lcs_len s1 s2 i' j' + 1
            else Z.max (lcs_len s1 s2 i' j) (go j')
        | _, _ => 0
        end
    | _, _ => 0
    end.

(** The entry in row [i], column [j] of a table. *)
Definition cell (dp : list (list Z)) (i j : nat) : option Z :=
  row ← dp !! i; row !! j.

(** The table has its full shape, and holds [lcs_len] in row 0, in column 0,
    in the rows before [i0] and in row [i0] before column [j0]. *)
Definition table_ok (s1 s2 : list A) (i0 j0 : nat) (dp : list (list Z))
    : Prop :=
  length dp = S (length s1) ∧
  (∀ i row, dp !! i = Some row → length row = S (length s2)) ∧
  ∀ i j, (i <= length s1)%nat → (j <= length s2)%nat →
    (i = 0 ∨ j = 0 ∨ i < i0 ∨ (i = i0 ∧ j < j0))%nat →
    cell dp i j = Some (lcs_len s1 s2 i j).

End MdcInvariants.

(** * Properties *)

Section Fibonacci.
Import Logica.

Lemma memo_ok_empty : memo_ok ∅.
Proof. intros k v Hk. by rewrite lookup_empty in Hk. Qed.

Lemma memo_ok_insert memo n :
  0 <= n → memo_ok memo → memo_ok (<[n := Ref.fib (Z.to_nat n)]> memo).
Proof.
  intros Hn Hm k v. rewrite lookup_insert. case_decide as Hk.
  - intros [= <-]. by subst k.
  - apply Hm.
Qed.

Lemma fib_step n :
  2 <= n →
  Ref.fib (Z.to_nat n) = Ref.fib (Z.to_nat (n - 1)) + Ref.fib (Z.to_nat (n - 2)).
Proof.
  intros Hn.
  replace (Z.to_nat n) with (S (S (Z.to_nat (n - 2)))) by lia.
  replace (Z.to_nat (n - 1)) with (S (Z.to_nat (n - 2))) by lia.
  reflexivity.
Qed.

Lemma fib_small n : 0 <= n → n <= 1 → Ref.fib (Z.to_nat n) = n.
Proof.
  intros H0 H1. assert (n = 0 ∨ n = 1) as [-> | ->] by lia; reflexivity.
Qed.

(** With a dictionary that holds only Fibonacci numbers and a recursion
    budget above [n], the call returns F(n) and leaves such a dictionary. *)
Lemma fibonacci_memo_ok fuel : ∀ n memo,
  0 <= n → (Z.to_nat n < fuel)%nat → memo_ok memo →
  ∃ memo', fibonacci_memo fuel n memo = Some (Ref.fib (Z.to_nat n), memo')
           ∧ memo_ok memo'.
Proof.
  induction fuel as [|fuel IH]; intros n memo Hn Hfuel Hm; [lia|].
  simpl. destruct (memo !! n) as [v|] eqn:Hl.
  - exists memo. apply Hm in Hl as [_ ->]. done.
  - case_decide as Hle.
    + exists memo. by rewrite fib_small.
    + destruct (IH (n - 1) memo) as (m1 & -> & Hm1); [lia | lia | done |].
      simpl.
      destruct (IH (n - 2) m1) as (m2 & -> & Hm2); [lia | lia | done |].
      simpl. rewrite lookup_insert_eq. simpl.
      rewrite <- fib_step by lia.
      eexists. split; [done|]. by apply memo_ok_insert.
Qed.

(** C6: for every n >= 0, [fibonacci(n)] called without a memo returns the
    reference Fibonacci number F(n), where F(0)=0, F(1)=1 and
    F(n)=F(n-1)+F(n-2); a recursion budget above n is enough for the call
    to return. *)
Theorem fibonacci_matches_reference (n : Z) (fuel : nat) :
  0 <= n → (Z.to_nat n < fuel)%nat →
  ∃ memo', fibonacci fuel n None = Some (Ref.fib (Z.to_nat n), memo').
Proof.
  intros Hn Hfuel.
  destruct (fibonacci_memo_ok fuel n ∅ Hn Hfuel memo_ok_empty) as (m & Hr & _).
  by exists m.
Qed.

Lemma fibonacci_matches_reference_witness :
  0 <= 10 ∧ (Z.to_nat 10 < 11)%nat ∧
  ∃ memo', fibonacci 11 10 None = Some (55, memo').
Proof.
  split; [lia|]. split; [simpl; lia|].
  apply (fibonacci_matches_reference 10 11); [lia | simpl; lia].
Defined.

(** C10: for every n < 0, [fibonacci(n)] called without a memo returns n
    itself and raises nothing: the dictionary is empty, and the base case
    answers n whenever n <= 1. *)
Theorem fibonacci_negative (n : Z) (fuel : nat) :
  n < 0 → (0 < fuel)%nat → fibonacci fuel n None = Some (n, ∅).
Proof.
  intros Hn Hfuel. destruct fuel as [|fuel]; [lia|].
  unfold fibonacci. simpl. rewrite lookup_empty.
  case_decide; [done | lia].
Qed.

Lemma fibonacci_negative_witness :
  -5 < 0 ∧ (0 < 1)%nat ∧ fibonacci 1 (-5) None = Some (-5, ∅).
Proof.
  split; [lia|]. split; [lia|]. apply (fibonacci_negative (-5) 1); lia.
Defined.

End Fibonacci.

Section PyFacts.
Context {A : Type}.
Implicit Types l : list A.

Lemma getitem_nonneg l i :
  0 <= i → Py.getitem l i = l !! Z.to_nat i.
Proof.
  intros Hi. unfold Py.getitem, Py.index, Py.len.
  case_decide; [done|]. rewrite decide_False by lia. simpl.
  symmetry. apply lookup_ge_None. lia.
Qed.

Lemma getitem_in_range l i :
  0 <= i < Py.len l → ∃ x, Py.getitem l i = Some x ∧ l !! Z.to_nat i = Some x.
Proof.
  intros [H0 Hlt]. rewrite getitem_nonneg by done.
  destruct (lookup_lt_is_Some_2 l (Z.to_nat i)) as [x Hx].
  - unfold Py.len in Hlt. lia.
  - by exists x.
Qed.

End PyFacts.

Section BuscaBinaria.
Import Logica.

Lemma sorted_lookup_le (l : list Z) :
  Sorted Z.le l →
  ∀ i j x y, l !! i = Some x → l !! j = Some y → (i <= j)%nat → x <= y.
Proof.
  intros Hs. apply (Sorted_StronglySorted _) in Hs.
  induction Hs as [|a l Hs IH Hall]; intros i j x y Hi Hj Hij.
  - by rewrite lookup_nil in Hi.
  - destruct i as [|i], j as [|j]; simpl in *; try lia.
    + injection Hi as <-. injection Hj as <-. lia.
    + injection Hi as <-. rewrite Forall_forall in Hall.
      apply Hall. eapply list_elem_of_lookup_2. done.
    + eapply IH; eauto. lia.
Qed.

Lemma midpoint_bounds e d : e <= d → e <= (e + d) `div` 2 <= d.
Proof.
  intros Hed. split.
  - apply Z.div_le_lower_bound; lia.
  - apply Z.div_le_upper_bound; lia.
Qed.

(** The loop keeps every position that holds the target between its two
    bounds, and it answers before its budget is spent. *)
Lemma busca_binaria_loop_spec (lista : list Z) (alvo : Z) :
  Sorted Z.le lista →
  ∀ fuel esquerda direita,
    0 <= esquerda → direita < Py.len lista →
    Z.max 0 (direita - esquerda + 1) < Z.of_nat fuel →
    (∀ k, lista !! k = Some alvo → esquerda <= Z.of_nat k <= direita) →
    ∃ r, busca_binaria_loop fuel lista alvo esquerda direita = Some r ∧
         ((r = -1 ∧ alvo ∉ lista) ∨
          (0 <= r < Py.len lista ∧ lista !! Z.to_nat r = Some alvo)).
Proof.
  intros Hs. induction fuel as [|fuel IH];
    intros e d He Hd Hfuel Hocc; [lia|].
  simpl. case_decide as Hed.
  - pose proof (midpoint_bounds e d Hed) as Hm.
    set (meio := (e + d) `div` 2) in *. clearbody meio.
    destruct (getitem_in_range lista meio) as (x & Hg & Hx); [lia|].
    rewrite Hg. simpl. case_decide as Hxa.
    + exists meio. split; [done|]. right. split; [lia|]. by subst x.
    + case_decide as Hlt.
      * apply IH; [lia | lia | lia |].
        intros k Hk. specialize (Hocc k Hk).
        destruct (decide (Z.of_nat k <= meio)) as [Hkm|]; [|lia].
        pose proof (sorted_lookup_le lista Hs k (Z.to_nat meio) alvo x Hk Hx).
        lia.
      * apply IH; [lia | lia | lia |].
        intros k Hk. specialize (Hocc k Hk).
        destruct (decide (meio <= Z.of_nat k)) as [Hkm|]; [|lia].
        pose proof (sorted_lookup_le lista Hs (Z.to_nat meio) k x alvo Hx Hk).
        lia.
  - exists (-1). split; [done|]. left. split; [done|].
    intros [k Hk]%list_elem_of_lookup_1. specialize (Hocc k Hk). lia.
Qed.

(** C2: on a list sorted in ascending order, [busca_binaria] returns an
    index holding the target when the target occurs in the list, and -1
    when it does not (so -1 on the empty list). *)
Theorem busca_binaria_correct (lista : list Z) (alvo : Z) :
  Sorted Z.le lista →
  (alvo ∈ lista →
     ∃ i, busca_binaria lista alvo = Some i ∧ 0 <= i < Py.len lista ∧
          Py.getitem lista i = Some alvo) ∧
  (alvo ∉ lista → busca_binaria lista alvo = Some (-1)).
Proof.
  intros Hs.
  destruct (busca_binaria_loop_spec lista alvo Hs (S (length lista)) 0
              (Py.len lista - 1)) as (r & Hr & Hcases).
  - lia.
  - lia.
  - unfold Py.len. lia.
  - intros k Hk. apply lookup_lt_Some in Hk. unfold Py.len. lia.
  - unfold busca_binaria. rewrite Hr. split.
    + intros Hin. destruct Hcases as [[_ Hnot] | [Hrange Hl]]; [done|].
      exists r. split; [done|]. split; [done|].
      rewrite getitem_nonneg by lia. done.
    + intros Hnot. destruct Hcases as [[-> _] | [_ Hl]]; [done|].
      exfalso. apply Hnot. eapply list_elem_of_lookup_2. done.
Qed.

Lemma busca_binaria_correct_witness :
  Sorted Z.le [1; 3; 5; 7; 9; 11; 13; 15; 17; 19] ∧
  (∃ i, busca_binaria [1; 3; 5; 7; 9; 11; 13; 15; 17; 19] 13 = Some i ∧
        0 <= i < 10 ∧
        Py.getitem [1; 3; 5; 7; 9; 11; 13; 15; 17; 19] i = Some 13) ∧
  busca_binaria [1; 3; 5; 7; 9; 11; 13; 15; 17; 19] 4 = Some (-1) ∧
  busca_binaria [] 4 = Some (-1).
Proof.
  assert (Hs : Sorted Z.le [1; 3; 5; 7; 9; 11; 13; 15; 17; 19]).
  { repeat first [apply Sorted_nil | apply Sorted_cons
                 | apply HdRel_nil | apply HdRel_cons]; lia. }
  split; [exact Hs|]. split; [|split].
  - apply (busca_binaria_correct _ 13 Hs).
    do 6 apply list_elem_of_further. apply list_elem_of_here.
  - apply (busca_binaria_correct _ 4 Hs).
    repeat (apply not_elem_of_cons; split; [lia|]). apply not_elem_of_nil.
  - apply (busca_binaria_correct [] 4); [apply Sorted_nil | apply not_elem_of_nil].
Defined.

End BuscaBinaria.

Section Conjuntos.
Import Logica.

Lemma set_xor_comm (a b : gset Z) : set_xor a b = set_xor b a.
Proof.
  unfold set_xor. apply set_eq. intros x.
  rewrite !elem_of_union, !elem_of_difference. tauto.
Qed.

Lemma operacoes_uniao (a b : gset Z) :
  operacoes_conjuntos a b !! "uniao" = Some (a ∪ b).
Proof.
  unfold operacoes_conjuntos.
  rewrite !lookup_insert_ne by done. apply lookup_insert_eq.
Qed.

Lemma operacoes_diferenca_simetrica (a b : gset Z) :
  operacoes_conjuntos a b !! "diferenca_simetrica" = Some (set_xor a b).
Proof. unfold operacoes_conjuntos. apply lookup_insert_eq. Qed.

(** C8: the 'uniao' entry of [operacoes_conjuntos(A, B)] equals that of
    [operacoes_conjuntos(B, A)], and so does the 'diferenca_simetrica'
    entry; both entries are present. *)
Theorem operacoes_conjuntos_comm (a b : gset Z) :
  operacoes_conjuntos a b !! "uniao" = Some (a ∪ b) ∧
  operacoes_conjuntos a b !! "uniao" = operacoes_conjuntos b a !! "uniao" ∧
  operacoes_conjuntos a b !! "diferenca_simetrica" = Some (set_xor a b) ∧
  operacoes_conjuntos a b !! "diferenca_simetrica"
    = operacoes_conjuntos b a !! "diferenca_simetrica".
Proof.
  rewrite !operacoes_uniao, !operacoes_diferenca_simetrica.
  repeat split.
  - f_equal. apply set_eq. intros x. rewrite !elem_of_union. tauto.
  - f_equal. apply set_xor_comm.
Qed.

End Conjuntos.

Section Divisores.
Import Resolucao.

Lemma sum_permutation (l1 l2 : list Z) : l1 ≡ₚ l2 → Py.sum l1 = Py.sum l2.
Proof.
  induction 1 as [|x l1 l2 _ IH|x y l|l1 l2 l3 _ IH1 _ IH2]; simpl; lia.
Qed.

(** [encontrar_divisores] lists the proper divisors, each once. *)
Lemma encontrar_divisores_spec (n d : Z) :
  d ∈ encontrar_divisores n ↔ Ref.proper_divisor d n.
Proof.
  unfold encontrar_divisores, Py.range, Ref.proper_divisor.
  rewrite list_elem_of_filter, elem_of_seqZ. split.
  - intros [Hmod Hr]. split; [lia|]. apply Z.mod_divide; [lia | done].
  - intros [Hr Hdiv]. split; [|lia]. apply Z.mod_divide; [lia | done].
Qed.

Lemma encontrar_divisores_NoDup (n : Z) : NoDup (encontrar_divisores n).
Proof. apply NoDup_filter, NoDup_seqZ. Qed.

Lemma perfect_sum (n : Z) :
  Ref.perfect n ↔ n = Py.sum (encontrar_divisores n).
Proof.
  split.
  - intros (ds & Hnd & Hds & ->). apply sum_permutation.
    apply NoDup_Permutation; [done | apply encontrar_divisores_NoDup |].
    intros d. by rewrite Hds, encontrar_divisores_spec.
  - intros Hn. exists (encontrar_divisores n).
    split; [apply encontrar_divisores_NoDup|].
    split; [apply encontrar_divisores_spec | done].
Qed.

(** C9: for every n >= 1 that is a perfect number, [sao_numeros_amigos(n, n)]
    is true: the code does not ask the two numbers to differ. *)
Theorem sao_numeros_amigos_perfect (n : Z) :
  1 <= n → Ref.perfect n → sao_numeros_amigos n n = true.
Proof.
  intros _ Hp%perfect_sum. unfold sao_numeros_amigos. simpl.
  rewrite <- Hp. by rewrite bool_decide_eq_true_2.
Qed.

Lemma perfect_6 : Ref.perfect 6.
Proof.
  exists [1; 2; 3]. split; [|split; [|reflexivity]].
  - repeat (apply NoDup_cons; split;
      [repeat (apply not_elem_of_cons; split; [lia|]); apply not_elem_of_nil|]).
    apply NoDup_nil_2.
  - intros d. unfold Ref.proper_divisor. split.
    + intros Hd. repeat (apply elem_of_cons in Hd as [-> | Hd]).
      * split; [lia|]. by exists 6.
      * split; [lia|]. by exists 3.
      * split; [lia|]. by exists 2.
      * by apply elem_of_nil in Hd.
    + intros [Hr [q Hq]].
      assert (d = 1 ∨ d = 2 ∨ d = 3 ∨ d = 4 ∨ d = 5) as Hc by lia.
      destruct Hc as [-> | [-> | [-> | [-> | ->]]]]; try lia.
      * apply list_elem_of_here.
      * apply list_elem_of_further, list_elem_of_here.
      * do 2 apply list_elem_of_further. apply list_elem_of_here.
Qed.

Lemma sao_numeros_amigos_perfect_witness :
  1 <= 6 ∧ Ref.perfect 6 ∧ sao_numeros_amigos 6 6 = true.
Proof.
  split; [lia|]. split; [exact perfect_6|].
  apply (sao_numeros_amigos_perfect 6); [lia | exact perfect_6].
Defined.

End Divisores.

Section Rotacao.
Import Resolucao.

Lemma rotate_right1_snoc {A} (l : list A) (x : A) :
  Ref.rotate_right1 (l ++ [x]) = x :: l.
Proof.
  unfold Ref.rotate_right1. by rewrite last_snoc, removelast_last.
Qed.

(** Rotating right [p] times cuts the list [p] items before its end and
    swaps the two parts. *)
Lemma right_rotation_drop_take {A} (l : list A) (p : nat) :
  (p <= length l)%nat →
  Ref.right_rotation p l = drop (length l - p) l ++ take (length l - p) l.
Proof.
  unfold Ref.right_rotation. induction p as [|p IH]; intros Hp.
  - simpl. rewrite Nat.sub_0_r, drop_all, firstn_all. done.
  - simpl. rewrite IH by lia.
    destruct (lookup_lt_is_Some_2 l (length l - S p)) as [x Hx]; [lia|].
    replace (length l - p)%nat with (S (length l - S p)) by lia.
    rewrite (take_S_r _ _ x) by done.
    rewrite app_assoc, rotate_right1_snoc.
    by rewrite (drop_S _ x (length l - S p)).
Qed.

Lemma slice_from_neg {A} (l : list A) (p : Z) :
  0 < p < Py.len l →
  Py.slice l (Some (- p)) None = drop (length l - Z.to_nat p) l.
Proof.
  unfold Py.slice, Py.adjust, Py.len. intros Hp. simpl.
  rewrite take_ge by (rewrite length_drop; lia).
  rewrite decide_True by lia. f_equal. lia.
Qed.

Lemma slice_to_neg {A} (l : list A) (p : Z) :
  0 < p < Py.len l →
  Py.slice l None (Some (- p)) = take (length l - Z.to_nat p) l.
Proof.
  unfold Py.slice, Py.adjust, Py.len. intros Hp. simpl.
  rewrite Nat.sub_0_r, decide_True by lia. f_equal. lia.
Qed.

Lemma slice_from_0 {A} (l : list A) : Py.slice l (Some 0) None = l.
Proof.
  unfold Py.slice, Py.adjust, Py.len. simpl.
  rewrite Z.min_l by lia. simpl. by rewrite Nat.sub_0_r, firstn_all.
Qed.

Lemma slice_to_0 {A} (l : list A) : Py.slice l None (Some 0) = [].
Proof.
  unfold Py.slice, Py.adjust, Py.len. simpl.
  rewrite Z.min_l by lia. done.
Qed.

Lemma rotacionar_array_drop_take (array : list Z) (k : Z) :
  array ≠ [] →
  rotacionar_array array k
  = drop (length array - Z.to_nat (k `mod` Py.len array)) array
    ++ take (length array - Z.to_nat (k `mod` Py.len array)) array.
Proof.
  intros Hne. unfold rotacionar_array.
  assert (0 < Py.len array) as Hlen.
  { unfold Py.len. destruct array; [done | simpl; lia]. }
  rewrite bool_decide_eq_false_2 by lia.
  pose proof (Z.mod_pos_bound k (Py.len array) Hlen) as Hp.
  destruct (decide (k `mod` Py.len array = 0)) as [-> | Hnz].
  - simpl. rewrite slice_from_0, slice_to_0, Nat.sub_0_r.
    by rewrite drop_all, firstn_all, app_nil_r.
  - by rewrite slice_from_neg, slice_to_neg by lia.
Qed.

(** C5: on a non-empty list, [rotacionar_array(S, k)] is S rotated right by
    [k mod len(S)] positions for every integer k, negative or beyond the
    length included; the item at index i moves to index [(i + k) mod len(S)];
    the empty list is returned as it is; and [1,2,3,4,5] rotated by 2 is
    [4,5,1,2,3]. *)
Theorem rotacionar_array_correct (array : list Z) (k : Z) :
  (array ≠ [] →
     rotacionar_array array k
       = Ref.right_rotation (Z.to_nat (k `mod` Py.len array)) array ∧
     ∀ i, 0 <= i < Py.len array →
       Py.getitem (rotacionar_array array k) ((i + k) `mod` Py.len array)
       = Py.getitem array i) ∧
  rotacionar_array [] k = [] ∧
  rotacionar_array [1; 2; 3; 4; 5] 2 = [4; 5; 1; 2; 3].
Proof.
  split; [|split; reflexivity].
  intros Hne.
  assert (0 < Py.len array) as Hlen.
  { unfold Py.len. destruct array; [done | simpl; lia]. }
  pose proof (Z.mod_pos_bound k (Py.len array) Hlen) as Hp.
  rewrite rotacionar_array_drop_take by done. split.
  - rewrite right_rotation_drop_take; [done | unfold Py.len in *; lia].
  - intros i Hi.
    rewrite <- Z.add_mod_idemp_r by lia.
    set (p := k `mod` Py.len array) in *. clearbody p.
    pose proof (Z.mod_pos_bound (i + p) (Py.len array) Hlen) as Hj.
    rewrite !getitem_nonneg by lia.
    unfold Py.len in *. set (n := length array) in *.
    destruct (decide (i + p < Z.of_nat n)) as [Hlt|Hge].
    + rewrite Z.mod_small by lia.
      rewrite lookup_app_r by (rewrite length_drop; lia).
      rewrite length_drop, lookup_take_lt by lia. f_equal. lia.
    + replace ((i + p) `mod` Z.of_nat n) with (i + p - Z.of_nat n).
      2:{ apply Z.mod_unique_pos with (q := 1); lia. }
      rewrite lookup_app_l by (rewrite length_drop; lia).
      rewrite lookup_drop. f_equal. lia.
Qed.

End Rotacao.

Section Senha.
Import Resolucao.

Lemma between_spec lo hi c :
  PyStr.between lo hi c = true ↔ (lo <= PyStr.code c <= hi)%nat.
Proof.
  unfold PyStr.between.
  rewrite andb_true_iff, !Nat.leb_le. done.
Qed.

Lemma re_search_spec classe s :
  PyStr.re_search classe s = true ↔ ∃ c, c ∈ PyStr.chars s ∧ classe c = true.
Proof.
  unfold PyStr.re_search. rewrite existsb_exists.
  split; intros (c & Hc & Hcl); exists c; by rewrite list_elem_of_In in *.
Qed.

Lemma re_search_between lo hi s :
  PyStr.re_search (PyStr.between lo hi) s = true ↔ Ref.has_char_between lo hi s.
Proof.
  rewrite re_search_spec. unfold Ref.has_char_between.
  split; intros (c & Hc & Hcl); exists c; by rewrite between_spec in *.
Qed.

Lemma re_search_especial s :
  PyStr.re_search classe_especial s = true ↔ Ref.has_special s.
Proof.
  rewrite re_search_spec. unfold Ref.has_special, classe_especial.
  split; intros (c & Hc & Hcl); exists c; by rewrite bool_decide_eq_true in *.
Qed.

Lemma negb_true_not (b : bool) (P : Prop) :
  (b = true ↔ P) → (negb b = true ↔ ¬ P).
Proof.
  intros [H1 H2]. destruct b; simpl; split.
  - discriminate.
  - intros HP. destruct HP. by apply H1.
  - intros _ HP. by apply H2 in HP.
  - done.
Qed.

(** What the five tests leave in [problemas], for each outcome of the
    tests. *)
Lemma validar_senha_forte_cases (senha : string) :
  let b1 := bool_decide (PyStr.len senha < 8) in
  let b2 := negb (PyStr.re_search PyStr.classe_maiuscula senha) in
  let b3 := negb (PyStr.re_search PyStr.classe_minuscula senha) in
  let b4 := negb (PyStr.re_search PyStr.classe_digito senha) in
  let b5 := negb (PyStr.re_search classe_especial senha) in
  let r := validar_senha_forte senha in
  (r.1 = true ↔ r.2 = []) ∧
  r.2 `sublist_of` Ref.razoes ∧
  (msg_minimo ∈ r.2 ↔ b1 = true) ∧
  (msg_maiuscula ∈ r.2 ↔ b2 = true) ∧
  (msg_minuscula ∈ r.2 ↔ b3 = true) ∧
  (msg_numero ∈ r.2 ↔ b4 = true) ∧
  (msg_especial ∈ r.2 ↔ b5 = true).
Proof.
  intros b1 b2 b3 b4 b5 r. subst r. unfold validar_senha_forte.
  fold b1 b2 b3 b4 b5. clearbody b1 b2 b3 b4 b5.
  destruct b1, b2, b3, b4, b5; simpl;
    (split; [|split];
     [ apply (bool_decide_unpack _); vm_compute; exact I
     | unfold Ref.razoes;
       repeat first [apply sublist_nil | apply sublist_skip | apply sublist_cons]
     | repeat split; apply (bool_decide_unpack _); vm_compute; exact I ]).
Qed.

(** On a text of characters below code point 256, where the decimal digits
    are 0..9: the flag is true exactly when the list of reasons is empty, the
    reasons come in the fixed order, and each one is in the list exactly when
    its check fails. *)
Lemma validar_senha_forte_latin1 (senha : string) :
  let r := validar_senha_forte senha in
  (r.1 = true ↔ r.2 = []) ∧
  r.2 `sublist_of` Ref.razoes ∧
  (msg_minimo ∈ r.2 ↔ PyStr.len senha < 8) ∧
  (msg_maiuscula ∈ r.2 ↔ ¬ Ref.has_char_between 65 90 senha) ∧
  (msg_minuscula ∈ r.2 ↔ ¬ Ref.has_char_between 97 122 senha) ∧
  (msg_numero ∈ r.2 ↔ ¬ Ref.has_char_between 48 57 senha) ∧
  (msg_especial ∈ r.2 ↔ ¬ Ref.has_special senha).
Proof.
  intros r.
  destruct (validar_senha_forte_cases senha)
    as (Hflag & Hsub & H1 & H2 & H3 & H4 & H5).
  split; [exact Hflag|]. split; [exact Hsub|].
  rewrite bool_decide_eq_true in H1.
  rewrite (negb_true_not _ _ (re_search_between 65 90 senha)) in H2.
  rewrite (negb_true_not _ _ (re_search_between 97 122 senha)) in H3.
  rewrite (negb_true_not _ _ (re_search_between 48 57 senha)) in H4.
  rewrite (negb_true_not _ _ (re_search_especial senha)) in H5.
  done.
Qed.

End Senha.

Section TopN.
Import Logica.

Lemma slice_to_negative {A} (l : list A) (n : Z) :
  n < 0 → Py.slice l None (Some n) = take (length l - Z.to_nat (- n)) l.
Proof.
  intros Hn. unfold Py.slice, Py.adjust, Py.len. simpl.
  rewrite Nat.sub_0_r, decide_True by lia. f_equal. lia.
Qed.

Lemma take_eq_nil {A} (l : list A) (k : nat) : take k l = [] ↔ k = 0%nat ∨ l = [].
Proof.
  destruct k, l; simpl; split; intros H; auto; try done.
  destruct H; done.
Qed.

(** C4, as the code has it: [top_n_palavras(texto, 0)] is the empty list; for
    n < 0 the slice [[:n]] keeps the ranking without its last -n entries, so
    the result is empty exactly when the ranking has at most -n entries. *)
Theorem top_n_palavras_nonpositive (texto : string) (n : Z) :
  n <= 0 →
  let ranking := sorted_by_count_desc (contar_frequencia texto) in
  (n = 0 → top_n_palavras texto n = []) ∧
  (n < 0 →
     top_n_palavras texto n = take (length ranking - Z.to_nat (- n)) ranking ∧
     (top_n_palavras texto n = [] ↔ Py.len ranking <= - n)).
Proof.
  intros _ ranking. unfold top_n_palavras. fold ranking. split.
  - intros ->. apply slice_to_0.
  - intros Hn. rewrite slice_to_negative by done. split; [done|].
    rewrite take_eq_nil. unfold Py.len. split.
    + intros [Hk | ->]; [lia | simpl; lia].
    + intros Hle. left. lia.
Qed.

Lemma top_n_palavras_nonpositive_witness :
  -1 <= 0 ∧ top_n_palavras "a b c" (-1) = [("a", 1); ("b", 1)].
Proof.
  split; [lia|].
  destruct (top_n_palavras_nonpositive "a b c" (-1)) as [_ Hneg]; [lia|].
  destruct Hneg as [Heq _]; [lia|]. exact Heq.
Defined.

(** With n = -1 and two distinct words the result is not empty. *)
Lemma top_n_palavras_negative_counterexample :
  -1 <= 0 ∧ top_n_palavras "a b" (-1) = [("a", 1)]
  ∧ top_n_palavras "a b" (-1) ≠ [].
Proof. split; [lia|]. split; [reflexivity | discriminate]. Qed.

End TopN.

Section MdcTable.
Import Resolucao.
Context {A : Type} `{EqDecision A}.
Implicit Types dp : list (list Z).

Lemma lcs_len_0_r (s1 s2 : list A) i : lcs_len s1 s2 i 0 = 0.
Proof. by destruct i. Qed.

Lemma lcs_len_0_l (s1 s2 : list A) j : lcs_len s1 s2 0 j = 0.
Proof. by destruct j. Qed.

Lemma lcs_len_eq (s1 s2 : list A) i j a :
  s1 !! i = Some a → s2 !! j = Some a →
  lcs_len s1 s2 (S i) (S j) = lcs_len s1 s2 i j + 1.
Proof. intros H1 H2. simpl. rewrite H1, H2. by rewrite decide_True. Qed.

Lemma lcs_len_ne (s1 s2 : list A) i j a b :
  s1 !! i = Some a → s2 !! j = Some b → a ≠ b →
  lcs_len s1 s2 (S i) (S j)
  = Z.max (lcs_len s1 s2 i (S j)) (lcs_len s1 s2 (S i) j).
Proof. intros H1 H2 Hne. simpl. rewrite H1, H2. by rewrite decide_False. Qed.

Lemma lcs_len_nonneg (s1 s2 : list A) i : ∀ j, 0 <= lcs_len s1 s2 i j.
Proof.
  induction i as [|i IHi]; [intros j; by rewrite lcs_len_0_l|].
  induction j as [|j IHj]; [done|].
  destruct (s1 !! i) as [a|] eqn:H1; [|simpl; by rewrite H1].
  destruct (s2 !! j) as [b|] eqn:H2; [|simpl; by rewrite H1, H2].
  destruct (decide (a = b)) as [->|Hne].
  - rewrite (lcs_len_eq _ _ _ _ b) by done. specialize (IHi j). lia.
  - rewrite (lcs_len_ne _ _ _ _ a b) by done. lia.
Qed.

Lemma setitem_in_range {B} (l : list B) (i : nat) (v : B) :
  (i < length l)%nat → Py.setitem l (Z.of_nat i) v = Some (<[i := v]> l).
Proof.
  intros Hi. unfold Py.setitem, Py.index, Py.len.
  rewrite decide_True by lia. simpl. by rewrite Nat2Z.id.
Qed.

Lemma dp_get_cell dp (i j : nat) :
  dp_get dp (Z.of_nat i) (Z.of_nat j) = cell dp i j.
Proof.
  unfold dp_get, cell. rewrite getitem_nonneg, Nat2Z.id by lia.
  destruct (dp !! i) as [row|]; [simpl|done].
  by rewrite getitem_nonneg, Nat2Z.id by lia.
Qed.

Lemma dp_set_in_range dp (i j : nat) (v : Z) row :
  dp !! i = Some row → (j < length row)%nat →
  dp_set dp (Z.of_nat i) (Z.of_nat j) v = Some (<[i := <[j := v]> row]> dp).
Proof.
  intros Hrow Hj. unfold dp_set.
  rewrite getitem_nonneg, Nat2Z.id, Hrow by lia. simpl.
  rewrite setitem_in_range by done. simpl.
  apply setitem_in_range. by eapply lookup_lt_Some.
Qed.

Lemma cell_update dp (i j : nat) (v : Z) row (i' j' : nat) :
  dp !! i = Some row → (j < length row)%nat →
  cell (<[i := <[j := v]> row]> dp) i' j'
  = if decide (i' = i ∧ j' = j) then Some v else cell dp i' j'.
Proof.
  intros Hrow Hj. unfold cell.
  destruct (decide (i' = i)) as [->|Hi].
  - rewrite list_lookup_insert_eq by (by eapply lookup_lt_Some). simpl.
    destruct (decide (j' = j)) as [->|Hj'].
    + rewrite decide_True by done. by apply list_lookup_insert_eq.
    + rewrite decide_False by (intros [_ ?]; done).
      rewrite list_lookup_insert_ne by done. by rewrite Hrow.
  - rewrite decide_False by (intros [? _]; done).
    by rewrite list_lookup_insert_ne by done.
Qed.

(** One round of the inner loop fills the next cell of the current row. *)
Lemma mdc_cell_ok (s1 s2 : list A) dp (i j : nat) :
  (1 <= i <= length s1)%nat → (1 <= j <= length s2)%nat →
  table_ok s1 s2 i j dp →
  ∃ dp', mdc_cell s1 s2 (Z.of_nat i) (Z.of_nat j) dp = Some dp'
         ∧ table_ok s1 s2 i (S j) dp'.
Proof.
  intros Hi Hj (Hlen & Hrows & Hcells).
  destruct i as [|i]; [lia|]. destruct j as [|j]; [lia|].
  destruct (lookup_lt_is_Some_2 s1 i) as [a Ha]; [lia|].
  destruct (lookup_lt_is_Some_2 s2 j) as [b Hb]; [lia|].
  destruct (lookup_lt_is_Some_2 dp (S i)) as [row Hrow]; [lia|].
  pose proof (Hrows _ _ Hrow) as Hrowlen.
  assert (Hnew : ∀ v, v = lcs_len s1 s2 (S i) (S j) →
            table_ok s1 s2 (S i) (S (S j)) (<[S i := <[S j := v]> row]> dp)).
  { intros v ->. split; [by rewrite length_insert|]. split.
    - intros i' row'. destruct (decide (i' = S i)) as [->|Hne].
      + rewrite list_lookup_insert_eq by lia. intros [= <-].
        by rewrite length_insert.
      + rewrite list_lookup_insert_ne by done. apply Hrows.
    - intros i' j' Hi' Hj' Hdone. rewrite cell_update by (done || lia).
      case_decide as Hc; [by destruct Hc as [-> ->]|].
      apply Hcells; [done | done | lia]. }
  unfold mdc_cell.
  replace (Z.of_nat (S i) - 1) with (Z.of_nat i) by lia.
  replace (Z.of_nat (S j) - 1) with (Z.of_nat j) by lia.
  rewrite !getitem_nonneg, !Nat2Z.id, Ha, Hb by lia. simpl.
  rewrite !dp_get_cell.
  destruct (decide (a = b)) as [->|Hne].
  - rewrite Hcells by lia. simpl.
    rewrite (dp_set_in_range _ _ _ _ row) by (done || lia).
    eexists. split; [done|]. apply Hnew. by rewrite (lcs_len_eq _ _ _ _ b).
  - rewrite (Hcells i (S j)) by lia. simpl.
    rewrite (Hcells (S i) j) by lia. simpl.
    rewrite (dp_set_in_range _ _ _ _ row) by (done || lia).
    eexists. split; [done|]. apply Hnew. by rewrite (lcs_len_ne _ _ _ _ a b).
Qed.

(** The inner loop, from column [j] on, completes row [i]. *)
Lemma mdc_inner_ok (s1 s2 : list A) (i : nat) :
  (1 <= i <= length s1)%nat →
  ∀ (k j : nat) dp,
    (1 <= j)%nat → (j + k = S (length s2))%nat →
    table_ok s1 s2 i j dp →
    ∃ dp', Py.for_each (seqZ (Z.of_nat j) (Z.of_nat k))
             (λ j dp, mdc_cell s1 s2 (Z.of_nat i) j dp) dp = Some dp'
           ∧ table_ok s1 s2 i (S (length s2)) dp'.
Proof.
  intros Hi. induction k as [|k IH]; intros j dp Hj Hjk Hok.
  - exists dp. split; [done|]. by replace (S (length s2)) with j by lia.
  - rewrite seqZ_cons by lia. simpl.
    destruct (mdc_cell_ok s1 s2 dp i j) as (dp1 & -> & Hok1); [lia|lia|done|].
    simpl.
    replace (Z.succ (Z.of_nat j)) with (Z.of_nat (S j)) by lia.
    replace (Z.pred (Z.of_nat (S k))) with (Z.of_nat k) by lia.
    apply IH; [lia | lia | done].
Qed.

Lemma table_ok_next_row (s1 s2 : list A) (i : nat) dp :
  table_ok s1 s2 i (S (length s2)) dp → table_ok s1 s2 (S i) 1 dp.
Proof.
  intros (Hlen & Hrows & Hcells). split; [done|]. split; [done|].
  intros i' j' Hi' Hj' Hdone. apply Hcells; [done | done | lia].
Qed.

(** The outer loop, from row [i] on, completes the table. *)
Lemma mdc_outer_ok (s1 s2 : list A) :
  ∀ (k i : nat) dp,
    (1 <= i)%nat → (i + k = S (length s1))%nat →
    table_ok s1 s2 i 1 dp →
    ∃ dp', Py.for_each (seqZ (Z.of_nat i) (Z.of_nat k))
             (λ i dp, Py.for_each (seqZ 1 (Z.of_nat (length s2)))
                        (λ j dp, mdc_cell s1 s2 i j dp) dp) dp = Some dp'
           ∧ table_ok s1 s2 (S (length s1)) 1 dp'.
Proof.
  induction k as [|k IH]; intros i dp Hi Hik Hok.
  - exists dp. split; [done|]. by replace (S (length s1)) with i by lia.
  - rewrite seqZ_cons by lia. simpl.
    destruct (mdc_inner_ok s1 s2 i ltac:(lia) (length s2) 1 dp)
      as (dp1 & Hrun & Hok1); [lia | lia | done |].
    change (Z.of_nat 1) with 1 in Hrun. rewrite Hrun. simpl.
    replace (Z.succ (Z.of_nat i)) with (Z.of_nat (S i)) by lia.
    replace (Z.pred (Z.of_nat (S k))) with (Z.of_nat k) by lia.
    apply IH; [lia | lia |]. by apply table_ok_next_row.
Qed.

Lemma table_ok_initial (s1 s2 : list A) :
  table_ok s1 s2 1 1
    (replicate (S (length s1)) (replicate (S (length s2)) 0)).
Proof.
  split; [by rewrite length_replicate|]. split.
  - intros i row [-> _]%lookup_replicate. by rewrite length_replicate.
  - intros i j Hi Hj Hdone. unfold cell.
    assert (replicate (S (length s2)) 0 !! j = Some 0) as Hrow
      by (apply lookup_replicate_2; lia).
    rewrite lookup_replicate_2 by lia.
    change (replicate (S (length s2)) 0 !! j = Some (lcs_len s1 s2 i j)).
    rewrite Hrow. f_equal.
    assert (i = 0 ∨ j = 0)%nat as [-> | ->] by lia.
    + by rewrite lcs_len_0_l.
    + by rewrite lcs_len_0_r.
Qed.

(** The two nested loops return a table that holds [lcs_len] everywhere. *)
Lemma mdc_table_ok (s1 s2 : list A) :
  ∃ dp, mdc_table s1 s2 = Some dp ∧
        ∀ i j, (i <= length s1)%nat → (j <= length s2)%nat →
               cell dp i j = Some (lcs_len s1 s2 i j).
Proof.
  unfold mdc_table.
  destruct (mdc_outer_ok s1 s2 (length s1) 1 _ ltac:(lia) ltac:(lia)
              (table_ok_initial s1 s2)) as (dp & Hrun & Hok).
  exists dp. split.
  - unfold Py.range, Py.len.
    replace (Z.of_nat (length s1) + 1 - 1) with (Z.of_nat (length s1)) by lia.
    replace (Z.of_nat (length s2) + 1 - 1) with (Z.of_nat (length s2)) by lia.
    replace (Z.to_nat (Z.of_nat (length s1) + 1)) with (S (length s1)) by lia.
    replace (Z.to_nat (Z.of_nat (length s2) + 1)) with (S (length s2)) by lia.
    exact Hrun.
  - intros i j Hi Hj. destruct Hok as (_ & _ & Hcells).
    apply Hcells; [done | done | lia].
Qed.

End MdcTable.

Section MdcReconstruir.
Import Resolucao.
Context {A : Type} `{EqDecision A}.
Implicit Types dp : list (list Z).

Local Arguments lcs_len : simpl never.

Lemma sublist_snoc_inv (t l : list A) (x : A) :
  t `sublist_of` l ++ [x] →
  t `sublist_of` l ∨ ∃ t', t = t' ++ [x] ∧ t' `sublist_of` l.
Proof.
  intros (t1 & t2 & -> & Ht1 & Ht2)%sublist_app_r.
  inversion Ht2 as [|y u1 u2 Hu|y u1 u2 Hu]; subst.
  - apply sublist_nil_r in Hu as ->. right. by exists t1.
  - apply sublist_nil_r in Hu as ->. left. by rewrite app_nil_r.
Qed.

(** A common subsequence without its last item is common to the two
    sequences without their last items. *)
Lemma sublist_snoc_both (t l : list A) (z x : A) :
  t ++ [z] `sublist_of` l ++ [x] → t `sublist_of` l.
Proof.
  intros [Hs | (t' & Heq & Hs)]%sublist_snoc_inv.
  - etrans; [|exact Hs]. by apply sublist_inserts_r.
  - apply app_inj_tail in Heq as [-> _]. done.
Qed.

(** No common subsequence of the two prefixes is longer than [lcs_len]. *)
Lemma lcs_len_upper (s1 s2 : list A) (i : nat) :
  ∀ (j : nat) (t : list A),
    (i <= length s1)%nat → (j <= length s2)%nat →
    t `sublist_of` take i s1 → t `sublist_of` take j s2 →
    Z.of_nat (length t) <= lcs_len s1 s2 i j.
Proof.
  induction i as [|i IHi].
  - intros j t _ _ Ht _. rewrite take_0 in Ht.
    apply sublist_nil_r in Ht as ->. rewrite lcs_len_0_l. done.
  - induction j as [|j IHj]; intros t Hi Hj Ht1 Ht2.
    + rewrite take_0 in Ht2. apply sublist_nil_r in Ht2 as ->. done.
    + destruct (lookup_lt_is_Some_2 s1 i) as [a Ha]; [lia|].
      destruct (lookup_lt_is_Some_2 s2 j) as [b Hb]; [lia|].
      rewrite (take_S_r _ _ a) in Ht1 by done.
      rewrite (take_S_r _ _ b) in Ht2 by done.
      destruct (decide (a = b)) as [->|Hne].
      * rewrite (lcs_len_eq _ _ _ _ b) by done.
        destruct t as [|z t' _] using rev_ind.
        { pose proof (lcs_len_nonneg s1 s2 i j). simpl. lia. }
        apply sublist_snoc_both in Ht1, Ht2.
        specialize (IHi j t' ltac:(lia) ltac:(lia) Ht1 Ht2).
        rewrite length_app. simpl. lia.
      * rewrite (lcs_len_ne _ _ _ _ a b) by done.
        apply sublist_snoc_inv in Ht1 as [Ht1 | (t' & -> & Ht1)].
        { assert (t `sublist_of` take (S j) s2) as Ht2'
            by (by rewrite (take_S_r _ _ b)).
          specialize (IHi (S j) t ltac:(lia) ltac:(lia) Ht1 Ht2'). lia. }
        apply sublist_snoc_inv in Ht2 as [Ht2 | (t'' & Heq & Ht2)].
        { assert (t' ++ [a] `sublist_of` take (S i) s1) as Ht1'.
          { rewrite (take_S_r _ _ a) by done.
            by apply sublist_app. }
          specialize (IHj (t' ++ [a]) ltac:(lia) ltac:(lia) Ht1' Ht2). lia. }
        apply app_inj_tail in Heq as [_ Heq]. congruence.
Qed.

(** From position [(i, j)] the last loop appends, in reverse, a common
    subsequence of the two prefixes whose length is [lcs_len]. *)
Lemma mdc_reconstruir_ok (s1 s2 : list A) dp :
  (∀ i j, (i <= length s1)%nat → (j <= length s2)%nat →
          cell dp i j = Some (lcs_len s1 s2 i j)) →
  ∀ (fuel i j : nat) (resultado : list A),
    (i <= length s1)%nat → (j <= length s2)%nat → (i + j < fuel)%nat →
    ∃ out,
      mdc_reconstruir fuel s1 s2 dp (Z.of_nat i) (Z.of_nat j) resultado
        = Some (resultado ++ out) ∧
      reverse out `sublist_of` take i s1 ∧
      reverse out `sublist_of` take j s2 ∧
      Z.of_nat (length out) = lcs_len s1 s2 i j.
Proof.
  intros Hdp. induction fuel as [|fuel IH]; intros i j res Hi Hj Hfuel; [lia|].
  simpl. case_decide as Hpos.
  - destruct i as [|i]; [lia|]. destruct j as [|j]; [lia|].
    destruct (lookup_lt_is_Some_2 s1 i) as [a Ha]; [lia|].
    destruct (lookup_lt_is_Some_2 s2 j) as [b Hb]; [lia|].
    replace (Z.of_nat (S i) - 1) with (Z.of_nat i) by lia.
    replace (Z.of_nat (S j) - 1) with (Z.of_nat j) by lia.
    rewrite !getitem_nonneg, !Nat2Z.id, Ha, Hb by lia. simpl.
    rewrite (take_S_r _ _ a), (take_S_r _ _ b) by done.
    destruct (decide (a = b)) as [->|Hne].
    + destruct (IH i j (res ++ [b])) as (out & -> & Hs1 & Hs2 & Hl);
        [lia | lia | lia |].
      exists (b :: out). rewrite <- app_assoc. split; [done|].
      rewrite reverse_cons.
      split; [by apply sublist_app|]. split; [by apply sublist_app|].
      rewrite (lcs_len_eq _ _ _ _ b) by done. simpl length. lia.
    + rewrite !dp_get_cell. rewrite (Hdp i (S j)), (Hdp (S i) j) by lia.
      simpl. rewrite (lcs_len_ne _ _ _ _ a b) by done.
      case_decide as Hgt.
      * destruct (IH i (S j) res) as (out & -> & Hs1 & Hs2 & Hl);
          [lia | lia | lia |].
        exists out. split; [done|].
        split; [by apply sublist_inserts_r|].
        split; [by rewrite (take_S_r _ _ b) in Hs2|]. lia.
      * destruct (IH (S i) j res) as (out & -> & Hs1 & Hs2 & Hl);
          [lia | lia | lia |].
        exists out. split; [done|].
        split; [by rewrite (take_S_r _ _ a) in Hs1|].
        split; [by apply sublist_inserts_r|]. lia.
  - exists []. rewrite app_nil_r. split; [done|].
    split; [apply sublist_nil_l|]. split; [apply sublist_nil_l|].
    destruct i as [|i]; [by rewrite lcs_len_0_l|].
    destruct j as [|j]; [by rewrite lcs_len_0_r | lia].
Qed.

(** [mdc_sequencias] returns a common subsequence of the two sequences that
    no common subsequence exceeds in length. *)
Lemma mdc_sequencias_longest (seq1 seq2 : list A) :
  ∃ r, mdc_sequencias seq1 seq2 = Some r ∧
       r `sublist_of` seq1 ∧ r `sublist_of` seq2 ∧
       ∀ t, t `sublist_of` seq1 → t `sublist_of` seq2 →
            (length t <= length r)%nat.
Proof.
  destruct (mdc_table_ok seq1 seq2) as (dp & Htab & Hdp).
  destruct (mdc_reconstruir_ok seq1 seq2 dp Hdp
              (S (length seq1 + length seq2)) (length seq1) (length seq2) [])
    as (out & Hrun & Hs1 & Hs2 & Hl); [lia | lia | lia |].
  rewrite !firstn_all in *.
  exists (reverse out). unfold mdc_sequencias, Py.len.
  rewrite Htab. cbn [mbind option_bind]. rewrite Hrun. simpl.
  split; [done|].
  split; [done|]. split; [done|].
  intros t Ht1 Ht2. rewrite length_reverse.
  pose proof (lcs_len_upper seq1 seq2 (length seq1) (length seq2) t) as Hup.
  rewrite !firstn_all in Hup. specialize (Hup ltac:(lia) ltac:(lia) Ht1 Ht2).
  lia.
Qed.

End MdcReconstruir.

(** C3: for every pair of sequences of characters, [mdc_sequencias] returns
    a sequence that is a subsequence of both and as long as any common
    subsequence can be; on AGGTAB and GXTXAYB the result has length 4. *)
Theorem mdc_sequencias_correct :
  (∀ (A : Type) (eq_dec : EqDecision A) (seq1 seq2 : list A),
     ∃ r, Resolucao.mdc_sequencias seq1 seq2 = Some r ∧
          r `sublist_of` seq1 ∧ r `sublist_of` seq2 ∧
          ∀ t, t `sublist_of` seq1 → t `sublist_of` seq2 →
               (length t <= length r)%nat) ∧
  (∃ r, Resolucao.mdc_sequencias (PyStr.chars "AGGTAB") (PyStr.chars "GXTXAYB")
          = Some r ∧ length r = 4%nat).
Proof.
  split.
  - intros A eq_dec seq1 seq2. apply mdc_sequencias_longest.
  - exists (PyStr.chars "GTAB"). split; [vm_compute; reflexivity | reflexivity].
Qed.

(** ** [merge_sort] in the store of list objects *)

Section HeapFacts.
Import Heap.

Lemma bind_Some {X Y} (m : M X) (f : X → M Y) (h h' : heap) (x : X) :
  m h = Some (x, h') → bind m f h = f x h'.
Proof. intros Hm. unfold bind. by rewrite Hm. Qed.

Lemma items_eq (h : heap) (l : loc) (v : list Z) :
  h !! l = Some v → items l h = Some (v, h).
Proof. intros Hl. unfold items, lift. by rewrite Hl. Qed.

Lemma list_len_eq (h : heap) (l : loc) (v : list Z) :
  h !! l = Some v → list_len l h = Some (Py.len v, h).
Proof. intros Hl. unfold list_len. by rewrite (bind_Some _ _ _ _ _ (items_eq _ _ _ Hl)). Qed.

Lemma list_getitem_eq (h : heap) (l : loc) (v : list Z) (i : nat) (x : Z) :
  h !! l = Some v → v !! i = Some x →
  list_getitem l (Z.of_nat i) h = Some (x, h).
Proof.
  intros Hl Hx. unfold list_getitem.
  rewrite (bind_Some _ _ _ _ _ (items_eq _ _ _ Hl)).
  unfold lift. by rewrite getitem_nonneg, Nat2Z.id, Hx by lia.
Qed.

Lemma list_slice_eq (h : heap) (l : loc) (v : list Z) (lo hi : option Z) :
  h !! l = Some v →
  list_slice l lo hi h = Some (length h, h ++ [Py.slice v lo hi]).
Proof.
  intros Hl. unfold list_slice.
  by rewrite (bind_Some _ _ _ _ _ (items_eq _ _ _ Hl)).
Qed.

Lemma list_append_eq (h : heap) (l : loc) (v : list Z) (x : Z) :
  h !! l = Some v → list_append l x h = Some (tt, <[l := v ++ [x]]> h).
Proof.
  intros Hl. unfold list_append.
  rewrite (bind_Some _ _ _ _ _ (items_eq _ _ _ Hl)).
  unfold update. by rewrite Hl.
Qed.

Lemma list_extend_eq (h : heap) (l l2 : loc) (v w : list Z) :
  h !! l = Some v → h !! l2 = Some w →
  list_extend l l2 h = Some (tt, <[l := v ++ w]> h).
Proof.
  intros Hl Hw. unfold list_extend.
  rewrite (bind_Some _ _ _ _ _ (items_eq _ _ _ Hl)).
  rewrite (bind_Some _ _ _ _ _ (items_eq _ _ _ Hw)).
  unfold update. by rewrite Hl.
Qed.

(** The newest object of a store, and its replacement. *)
Lemma lookup_newest (h k : heap) (v : list Z) :
  (h ++ v :: k) !! length h = Some v.
Proof. by rewrite list_lookup_middle. Qed.

Lemma insert_newest (h k : heap) (v w : list Z) :
  <[length h := w]> (h ++ v :: k) = h ++ w :: k.
Proof.
  rewrite insert_app_r_alt by lia. by rewrite Nat.sub_diag.
Qed.

Lemma slice_from_nat (v : list Z) (i : nat) :
  (i <= length v)%nat → Py.slice v (Some (Z.of_nat i)) None = drop i v.
Proof.
  intros Hi. unfold Py.slice, Py.adjust, Py.len. simpl.
  rewrite decide_False by lia.
  replace (Z.to_nat (Z.of_nat i `min` Z.of_nat (length v))) with i by lia.
  apply take_ge. rewrite length_drop. lia.
Qed.

Lemma slice_to_nat (v : list Z) (i : nat) :
  (i <= length v)%nat → Py.slice v None (Some (Z.of_nat i)) = take i v.
Proof.
  intros Hi. unfold Py.slice, Py.adjust, Py.len. simpl.
  rewrite decide_False by lia. rewrite Nat.sub_0_r. f_equal. lia.
Qed.

Lemma list_merge_nil_r (l : list Z) : list_merge Z.le l [] = l.
Proof. by destruct l. Qed.

Lemma list_merge_nil_l (l : list Z) : list_merge Z.le [] l = l.
Proof. by destruct l. Qed.

End HeapFacts.

Section MergeSortCorrect.
Import Heap Logica.

Lemma mesclar_loop_unfold fuel esquerda direita resultado i j :
  mesclar_loop (S fuel) esquerda direita resultado i j
  = bind (list_len esquerda) (λ n1,
      if decide (i < n1) then
        bind (list_len direita) (λ n2,
          if decide (j < n2) then
            bind (list_getitem esquerda i) (λ x,
            bind (list_getitem direita j) (λ y,
              if decide (x <= y) then
                bind (list_getitem esquerda i) (λ x',
                bind (list_append resultado x') (λ _,
                mesclar_loop fuel esquerda direita resultado (i + 1) j))
              else
                bind (list_getitem direita j) (λ y',
                bind (list_append resultado y') (λ _,
                mesclar_loop fuel esquerda direita resultado i (j + 1)))))
          else ret (i, j))
      else ret (i, j)).
Proof. reflexivity. Qed.

(** The loop of [mesclar] changes the object [resultado] only, where it
    appends the merge of what it has read of the two lists. *)
Lemma mesclar_loop_ok (h0 : heap) (e d : loc) (ev dv : list Z) :
  h0 !! e = Some ev → h0 !! d = Some dv →
  ∀ (fuel i j : nat) (acc : list Z),
    (i <= length ev)%nat → (j <= length dv)%nat →
    ((length ev - i) + (length dv - j) < fuel)%nat →
    ∃ (i' j' : nat) (acc' : list Z),
      mesclar_loop fuel e d (length h0) (Z.of_nat i) (Z.of_nat j)
                   (h0 ++ [acc])
        = Some ((Z.of_nat i', Z.of_nat j'), h0 ++ [acc']) ∧
      (i' <= length ev)%nat ∧ (j' <= length dv)%nat ∧
      acc' ++ drop i' ev ++ drop j' dv
        = acc ++ list_merge Z.le (drop i ev) (drop j dv).
Proof.
  intros He Hd. induction fuel as [|fuel IH]; intros i j acc Hi Hj Hfuel; [lia|].
  assert (He' : ∀ acc, (h0 ++ [acc]) !! e = Some ev)
    by (intros; by apply lookup_app_l_Some).
  assert (Hd' : ∀ acc, (h0 ++ [acc]) !! d = Some dv)
    by (intros; by apply lookup_app_l_Some).
  rewrite mesclar_loop_unfold.
  rewrite (bind_Some _ _ _ _ _ (list_len_eq _ _ _ (He' acc))).
  unfold Py.len. case_decide as Hlt1.
  - rewrite (bind_Some _ _ _ _ _ (list_len_eq _ _ _ (Hd' acc))).
    unfold Py.len. case_decide as Hlt2.
    + destruct (lookup_lt_is_Some_2 ev i) as [x Hx]; [lia|].
      destruct (lookup_lt_is_Some_2 dv j) as [y Hy]; [lia|].
      rewrite (bind_Some _ _ _ _ _ (list_getitem_eq _ _ _ _ _ (He' acc) Hx)).
      rewrite (bind_Some _ _ _ _ _ (list_getitem_eq _ _ _ _ _ (Hd' acc) Hy)).
      rewrite (drop_S _ _ _ Hx), (drop_S _ _ _ Hy), list_merge_cons.
      case_decide as Hxy.
      * rewrite (bind_Some _ _ _ _ _ (list_getitem_eq _ _ _ _ _ (He' acc) Hx)).
        rewrite (bind_Some _ _ _ _ _
                   (list_append_eq _ _ _ x (lookup_newest h0 [] acc))).
        rewrite insert_newest.
        replace (Z.of_nat i + 1) with (Z.of_nat (S i)) by lia.
        destruct (IH (S i) j (acc ++ [x])) as (i' & j' & acc' & Hrun & ? & ? & Heq);
          [lia | lia | lia |].
        exists i', j', acc'. split; [done|]. split; [done|]. split; [done|].
        rewrite Heq, (drop_S _ _ _ Hy). by rewrite <- app_assoc.
      * rewrite (bind_Some _ _ _ _ _ (list_getitem_eq _ _ _ _ _ (Hd' acc) Hy)).
        rewrite (bind_Some _ _ _ _ _
                   (list_append_eq _ _ _ y (lookup_newest h0 [] acc))).
        rewrite insert_newest.
        replace (Z.of_nat j + 1) with (Z.of_nat (S j)) by lia.
        destruct (IH i (S j) (acc ++ [y])) as (i' & j' & acc' & Hrun & ? & ? & Heq);
          [lia | lia | lia |].
        exists i', j', acc'. split; [done|]. split; [done|]. split; [done|].
        rewrite Heq, (drop_S _ _ _ Hx). by rewrite <- app_assoc.
    + exists i, j, acc. split; [done|]. split; [done|]. split; [done|].
      rewrite (drop_ge dv j) by lia. by rewrite list_merge_nil_r, app_nil_r.
  - exists i, j, acc. split; [done|]. split; [done|]. split; [done|].
    rewrite (drop_ge ev i) by lia. by rewrite list_merge_nil_l.
Qed.

(** [mesclar] makes new objects only; the first of them is the result and
    holds the merge of the two lists. *)
Lemma mesclar_ok (h : heap) (e d : loc) (ev dv : list Z) (fuel : nat) :
  h !! e = Some ev → h !! d = Some dv →
  (length ev + length dv < fuel)%nat →
  ∃ k, mesclar fuel e d h
       = Some (length h, h ++ list_merge Z.le ev dv :: k).
Proof.
  intros He Hd Hfuel. unfold mesclar.
  rewrite (bind_Some _ _ h (h ++ [[]]) (length h)) by reflexivity.
  destruct (mesclar_loop_ok h e d ev dv He Hd fuel 0 0 [])
    as (i' & j' & acc' & Hrun & Hi' & Hj' & Heq); [lia | lia | lia |].
  change (Z.of_nat 0) with 0 in Hrun.
  rewrite (bind_Some _ _ _ _ _ Hrun). cbn [fst snd].
  rewrite !drop_0 in Heq. simpl in Heq.
  (* the rest of [esquerda] *)
  assert (He1 : (h ++ [acc']) !! e = Some ev) by (by apply lookup_app_l_Some).
  rewrite (bind_Some _ _ _ _ _ (list_slice_eq _ _ _ (Some (Z.of_nat i')) None He1)).
  rewrite slice_from_nat by done.
  rewrite length_app, <- app_assoc. simpl.
  assert (Hr1 : (h ++ [acc'; drop i' ev]) !! length h = Some acc')
    by apply lookup_newest.
  assert (Ht1 : (h ++ [acc'; drop i' ev]) !! (length h + 1)%nat
                = Some (drop i' ev)).
  { rewrite lookup_app_r by lia.
    by replace (length h + 1 - length h)%nat with 1%nat by lia. }
  rewrite (bind_Some _ _ _ _ _ (list_extend_eq _ _ _ _ _ Hr1 Ht1)).
  rewrite insert_newest.
  (* the rest of [direita] *)
  set (h2 := h ++ [acc' ++ drop i' ev; drop i' ev]).
  assert (Hd2 : h2 !! d = Some dv) by (by apply lookup_app_l_Some).
  rewrite (bind_Some _ _ _ _ _ (list_slice_eq _ _ _ (Some (Z.of_nat j')) None Hd2)).
  rewrite slice_from_nat by done.
  subst h2. rewrite length_app, <- app_assoc. simpl.
  set (h3 := h ++ [acc' ++ drop i' ev; drop i' ev; drop j' dv]).
  assert (Hr3 : h3 !! length h = Some (acc' ++ drop i' ev))
    by apply lookup_newest.
  assert (Ht3 : h3 !! (length h + 2)%nat = Some (drop j' dv)).
  { subst h3. rewrite lookup_app_r by lia.
    by replace (length h + 2 - length h)%nat with 2%nat by lia. }
  rewrite (bind_Some _ _ _ _ _ (list_extend_eq _ _ _ _ _ Hr3 Ht3)).
  subst h3. rewrite insert_newest. unfold ret.
  rewrite <- app_assoc, Heq. by eexists.
Qed.

Lemma merge_sort_unfold fuel lista :
  merge_sort (S fuel) lista
  = bind (list_len lista) (λ n,
      if decide (n <= 1) then ret lista
      else
        bind (list_len lista) (λ n',
        bind (list_slice lista None (Some (n' `div` 2))) (λ metade1,
        bind (merge_sort fuel metade1) (λ esquerda,
        bind (list_slice lista (Some (n' `div` 2)) None) (λ metade2,
        bind (merge_sort fuel metade2) (λ direita,
        mesclar (S fuel) esquerda direita)))))).
Proof. reflexivity. Qed.

Lemma sorted_short (v : list Z) : (length v <= 1)%nat → Sorted Z.le v.
Proof.
  destruct v as [|x [|y v]]; simpl; intros Hlen; [| |lia].
  - apply Sorted_nil.
  - apply Sorted_cons; [apply Sorted_nil | apply HdRel_nil].
Qed.

(** With a budget above the length of the list, [merge_sort] returns the
    address of a sorted permutation of the list, and every object that
    existed before the call is as it was. *)
Lemma merge_sort_ok (fuel : nat) :
  ∀ (h : heap) (lista : loc) (v : list Z),
    h !! lista = Some v → (length v < fuel)%nat →
    ∃ (r : loc) (h' : heap) (out : list Z),
      merge_sort fuel lista h = Some (r, h') ∧
      h `prefix_of` h' ∧
      h' !! r = Some out ∧ out ≡ₚ v ∧ Sorted Z.le out.
Proof.
  induction fuel as [|fuel IH]; intros h lista v Hv Hfuel; [lia|].
  rewrite merge_sort_unfold.
  rewrite (bind_Some _ _ _ _ _ (list_len_eq _ _ _ Hv)).
  unfold Py.len. case_decide as Hshort.
  - exists lista, h, v. split; [done|]. split; [done|]. split; [done|].
    split; [done|]. apply sorted_short. lia.
  - rewrite (bind_Some _ _ _ _ _ (list_len_eq _ _ _ Hv)). unfold Py.len.
    set (m := (length v / 2)%nat).
    assert (Hm : (1 <= m ∧ m < length v)%nat).
    { subst m. split.
      - apply Nat.div_le_lower_bound; lia.
      - apply Nat.div_lt; lia. }
    replace (Z.of_nat (length v) `div` 2) with (Z.of_nat m)
      by (subst m; by rewrite Nat2Z.inj_div).
    clearbody m.
    (* first half *)
    rewrite (bind_Some _ _ _ _ _ (list_slice_eq _ _ _ None (Some (Z.of_nat m)) Hv)).
    rewrite slice_to_nat by lia.
    destruct (IH (h ++ [take m v]) (length h) (take m v))
      as (e & h1 & ev & Hrun1 & Hpre1 & He & Hperm1 & Hsort1).
    { apply lookup_newest. }
    { rewrite length_take. lia. }
    rewrite (bind_Some _ _ _ _ _ Hrun1).
    (* second half *)
    assert (Hv1 : h1 !! lista = Some v).
    { eapply prefix_lookup_Some; [|exact Hpre1]. by apply lookup_app_l_Some. }
    rewrite (bind_Some _ _ _ _ _ (list_slice_eq _ _ _ (Some (Z.of_nat m)) None Hv1)).
    rewrite slice_from_nat by lia.
    destruct (IH (h1 ++ [drop m v]) (length h1) (drop m v))
      as (d & h2 & dv & Hrun2 & Hpre2 & Hd & Hperm2 & Hsort2).
    { apply lookup_newest. }
    { rewrite length_drop. lia. }
    rewrite (bind_Some _ _ _ _ _ Hrun2).
    (* merge *)
    assert (He2 : h2 !! e = Some ev).
    { eapply prefix_lookup_Some; [|exact Hpre2]. by apply lookup_app_l_Some. }
    assert (Hlen : (length ev + length dv = length v)%nat).
    { rewrite (Permutation_length Hperm1), (Permutation_length Hperm2).
      rewrite length_take, length_drop. lia. }
    destruct (mesclar_ok h2 e d ev dv (S fuel) He2 Hd) as [k Hrun3]; [lia|].
    rewrite Hrun3.
    exists (length h2), (h2 ++ list_merge Z.le ev dv :: k), (list_merge Z.le ev dv).
    split; [done|]. split.
    { etrans; [apply (prefix_app_r h h [take m v]); done|].
      etrans; [exact Hpre1|].
      etrans; [apply (prefix_app_r h1 h1 [drop m v]); done|].
      etrans; [exact Hpre2|]. by apply prefix_app_r. }
    split; [apply lookup_newest|]. split.
    + rewrite merge_Permutation, Hperm1, Hperm2. by rewrite take_drop.
    + by apply (Sorted_list_merge _).
Qed.

(** C1: for every list of integers S, [merge_sort(S)] returns a list that is
    a permutation of S and is non-decreasing, and it never mutates the input
    list in place: after the call the input object, like every list object
    that existed before the call, holds the items it held. *)
Theorem merge_sort_correct (h : heap) (lista : loc) (valores : list Z) (fuel : nat) :
  h !! lista = Some valores → (length valores < fuel)%nat →
  ∃ (r : loc) (h' : heap) (out : list Z),
    merge_sort fuel lista h = Some (r, h') ∧
    h' !! r = Some out ∧ out ≡ₚ valores ∧ Sorted Z.le out ∧
    h' !! lista = Some valores ∧
    ∀ l v, h !! l = Some v → h' !! l = Some v.
Proof.
  intros HS Hfuel.
  destruct (merge_sort_ok fuel h lista valores HS Hfuel)
    as (r & h' & out & Hrun & Hpre & Hr & Hperm & Hsort).
  exists r, h', out. repeat split; try done.
  - by eapply prefix_lookup_Some.
  - intros l v Hl. by eapply prefix_lookup_Some.
Qed.

Lemma merge_sort_correct_witness :
  ∃ (r : loc) (h' : heap) (out : list Z),
    merge_sort 8 0%nat [[64; 34; 25; 12; 22; 11; 90]] = Some (r, h') ∧
    h' !! r = Some out ∧ out ≡ₚ [64; 34; 25; 12; 22; 11; 90] ∧
    Sorted Z.le out ∧
    h' !! 0%nat = Some [64; 34; 25; 12; 22; 11; 90] ∧
    ∀ l v, [[64; 34; 25; 12; 22; 11; 90]] !! l = Some v → h' !! l = Some v.
Proof.
  apply (merge_sort_correct [[64; 34; 25; 12; 22; 11; 90]] 0%nat
           [64; 34; 25; 12; 22; 11; 90] 8); [reflexivity | simpl; lia].
Defined.

End MergeSortCorrect.

(** * Further properties of [logica_programacao.py] *)

Section BuscaBinariaQualquerLista.
Import Logica.

Lemma busca_binaria_loop_sound (lista : list Z) (alvo : Z) :
  ∀ fuel esquerda direita,
    0 <= esquerda → direita < Py.len lista →
    Z.max 0 (direita - esquerda + 1) < Z.of_nat fuel →
    ∃ r, busca_binaria_loop fuel lista alvo esquerda direita = Some r ∧
         (r = -1 ∨ (0 <= r < Py.len lista ∧ Py.getitem lista r = Some alvo)).
Proof.
  induction fuel as [|fuel IH]; intros e d He Hd Hfuel; [lia|].
  simpl. case_decide as Hed.
  - pose proof (midpoint_bounds e d Hed) as Hm.
    set (meio := (e + d) `div` 2) in *. clearbody meio.
    destruct (getitem_in_range lista meio) as (x & Hg & Hx); [lia|].
    rewrite Hg. simpl. case_decide as Hxa.
    + exists meio. split; [done|]. right. split; [lia|]. by subst x.
    + case_decide; apply IH; lia.
  - exists (-1). split; [done|]. by left.
Qed.

(** X1: on every list, sorted or not, [busca_binaria] returns without an
    [IndexError], and what it returns is -1 or an index of the list that
    holds the target. *)
Theorem busca_binaria_sound (lista : list Z) (alvo : Z) :
  ∃ r, busca_binaria lista alvo = Some r ∧
       (r = -1 ∨ (0 <= r < Py.len lista ∧ Py.getitem lista r = Some alvo)).
Proof.
  unfold busca_binaria. apply busca_binaria_loop_sound; unfold Py.len; lia.
Qed.

End BuscaBinariaQualquerLista.

Section MergeSortObjetos.
Import Heap Logica.

(** X2: [mesclar] returns a new object that holds a permutation of the items
    of its two arguments, sorted when both arguments are sorted; every object
    of the store, the two arguments included (and they may be one object),
    is left as it was. *)
Theorem mesclar_correct (h : heap) (e d : loc) (ev dv : list Z) (fuel : nat) :
  h !! e = Some ev → h !! d = Some dv →
  (length ev + length dv < fuel)%nat →
  ∃ (r : loc) (h' : heap) (out : list Z),
    mesclar fuel e d h = Some (r, h') ∧
    h !! r = None ∧ h' !! r = Some out ∧
    out ≡ₚ ev ++ dv ∧
    (Sorted Z.le ev → Sorted Z.le dv → Sorted Z.le out) ∧
    ∀ l v, h !! l = Some v → h' !! l = Some v.
Proof.
  intros He Hd Hfuel.
  destruct (mesclar_ok h e d ev dv fuel He Hd Hfuel) as [k Hrun].
  exists (length h), (h ++ list_merge Z.le ev dv :: k), (list_merge Z.le ev dv).
  split; [done|]. split; [by apply lookup_ge_None|].
  split; [apply lookup_newest|]. split; [apply merge_Permutation|].
  split; [intros; by apply (Sorted_list_merge _)|].
  intros l v Hl. by apply lookup_app_l_Some.
Qed.

Lemma mesclar_correct_witness :
  ∃ (r : loc) (h' : heap) (out : list Z),
    mesclar 5 0%nat 0%nat [[1; 3]] = Some (r, h') ∧
    [[1; 3]] !! r = None ∧ h' !! r = Some out ∧
    out ≡ₚ [1; 3] ++ [1; 3] ∧
    (Sorted Z.le [1; 3] → Sorted Z.le [1; 3] → Sorted Z.le out) ∧
    ∀ l v, [[1; 3]] !! l = Some v → h' !! l = Some v.
Proof.
  apply (mesclar_correct [[1; 3]] 0%nat 0%nat [1; 3] [1; 3] 5);
    [reflexivity | reflexivity | simpl; lia].
Defined.

(** X3: on a list of at most one item [merge_sort] returns the very object
    it was given and makes no object; on a longer list it returns an object
    that did not exist before the call. *)
Theorem merge_sort_result_object (h : heap) (lista : loc) (v : list Z)
    (fuel : nat) :
  h !! lista = Some v → (length v < fuel)%nat →
  ∃ (r : loc) (h' : heap),
    merge_sort fuel lista h = Some (r, h') ∧
    ((length v <= 1)%nat → r = lista ∧ h' = h) ∧
    ((2 <= length v)%nat → h !! r = None ∧ r ≠ lista).
Proof.
  intros Hv Hfuel. destruct fuel as [|fuel]; [lia|].
  rewrite merge_sort_unfold.
  rewrite (bind_Some _ _ _ _ _ (list_len_eq _ _ _ Hv)).
  unfold Py.len. case_decide as Hshort.
  - exists lista, h. split; [done|]. split; [done | lia].
  - rewrite (bind_Some _ _ _ _ _ (list_len_eq _ _ _ Hv)). unfold Py.len.
    set (m := (length v / 2)%nat).
    assert (Hm : (1 <= m ∧ m < length v)%nat).
    { subst m. split.
      - apply Nat.div_le_lower_bound; lia.
      - apply Nat.div_lt; lia. }
    replace (Z.of_nat (length v) `div` 2) with (Z.of_nat m)
      by (subst m; by rewrite Nat2Z.inj_div).
    clearbody m.
    rewrite (bind_Some _ _ _ _ _ (list_slice_eq _ _ _ None (Some (Z.of_nat m)) Hv)).
    rewrite slice_to_nat by lia.
    destruct (merge_sort_ok fuel (h ++ [take m v]) (length h) (take m v))
      as (e & h1 & ev & Hrun1 & Hpre1 & He & Hperm1 & _).
    { apply lookup_newest. }
    { rewrite length_take. lia. }
    rewrite (bind_Some _ _ _ _ _ Hrun1).
    assert (Hv1 : h1 !! lista = Some v).
    { eapply prefix_lookup_Some; [|exact Hpre1]. by apply lookup_app_l_Some. }
    rewrite (bind_Some _ _ _ _ _ (list_slice_eq _ _ _ (Some (Z.of_nat m)) None Hv1)).
    rewrite slice_from_nat by lia.
    destruct (merge_sort_ok fuel (h1 ++ [drop m v]) (length h1) (drop m v))
      as (d & h2 & dv & Hrun2 & Hpre2 & Hd & Hperm2 & _).
    { apply lookup_newest. }
    { rewrite length_drop. lia. }
    rewrite (bind_Some _ _ _ _ _ Hrun2).
    assert (He2 : h2 !! e = Some ev).
    { eapply prefix_lookup_Some; [|exact Hpre2]. by apply lookup_app_l_Some. }
    assert (Hlen : (length ev + length dv = length v)%nat).
    { rewrite (Permutation_length Hperm1), (Permutation_length Hperm2).
      rewrite length_take, length_drop. lia. }
    destruct (mesclar_ok h2 e d ev dv (S fuel) He2 Hd) as [k Hrun3]; [lia|].
    rewrite Hrun3. eexists _, _. split; [done|]. split; [lia|].
    intros _.
    assert (length h < length h2)%nat as Hgrow.
    { apply prefix_length in Hpre1, Hpre2.
      rewrite length_app in Hpre1, Hpre2. simpl in *. lia. }
    split; [apply lookup_ge_None; lia|].
    apply lookup_lt_Some in Hv. lia.
Qed.

Lemma merge_sort_result_object_witness :
  ∃ (r : loc) (h' : heap),
    merge_sort 3 0%nat [[2; 1]] = Some (r, h') ∧
    ((length [2; 1] <= 1)%nat → r = 0%nat ∧ h' = [[2; 1]]) ∧
    ((2 <= length [2; 1])%nat → [[2; 1]] !! r = None ∧ r ≠ 0%nat).
Proof.
  apply (merge_sort_result_object [[2; 1]] 0%nat [2; 1] 3);
    [reflexivity | simpl; lia].
Defined.

(** X4: [merge_sort] is idempotent on items: sorting the object it returned
    gives an object with the same items; and a list that is already sorted
    comes back with the same items. *)
Theorem merge_sort_idempotent (h : heap) (lista : loc) (v : list Z)
    (fuel : nat) :
  h !! lista = Some v → (length v < fuel)%nat →
  ∃ (r : loc) (h1 : heap) (out : list Z) (r2 : loc) (h2 : heap),
    merge_sort fuel lista h = Some (r, h1) ∧ h1 !! r = Some out ∧
    merge_sort fuel r h1 = Some (r2, h2) ∧ h2 !! r2 = Some out ∧
    (Sorted Z.le v → out = v).
Proof.
  intros Hv Hfuel.
  destruct (merge_sort_ok fuel h lista v Hv Hfuel)
    as (r & h1 & out & Hrun1 & _ & Hr & Hperm1 & Hsort1).
  destruct (merge_sort_ok fuel h1 r out Hr)
    as (r2 & h2 & out2 & Hrun2 & _ & Hr2 & Hperm2 & Hsort2).
  { rewrite (Permutation_length Hperm1). done. }
  exists r, h1, out, r2, h2. split; [done|]. split; [done|].
  split; [done|]. split.
  - rewrite Hr2. f_equal. by apply (Sorted_unique Z.le).
  - intros Hsv. by apply (Sorted_unique Z.le).
Qed.

Lemma merge_sort_idempotent_witness :
  ∃ (r : loc) (h1 : heap) (out : list Z) (r2 : loc) (h2 : heap),
    merge_sort 4 0%nat [[3; 1; 2]] = Some (r, h1) ∧ h1 !! r = Some out ∧
    merge_sort 4 r h1 = Some (r2, h2) ∧ h2 !! r2 = Some out ∧
    (Sorted Z.le [3; 1; 2] → out = [3; 1; 2]).
Proof.
  apply (merge_sort_idempotent [[3; 1; 2]] 0%nat [3; 1; 2] 4);
    [reflexivity | simpl; lia].
Defined.

End MergeSortObjetos.

Section FibonacciMemo.
Import Logica.

Lemma memo_ok_insert_subseteq (memo : gmap Z Z) (n : Z) :
  memo_ok memo → memo ⊆ <[n := Ref.fib (Z.to_nat n)]> memo.
Proof.
  intros Hm. apply map_subseteq_spec. intros k v Hk.
  destruct (decide (k = n)) as [->|Hne].
  - pose proof (Hm _ _ Hk) as [_ ->]. apply lookup_insert_eq.
  - by rewrite lookup_insert_ne.
Qed.

(** A call keeps the entries it finds in the dictionary and adds correct
    ones. *)
Lemma fibonacci_memo_extends fuel : ∀ n memo,
  0 <= n → (Z.to_nat n < fuel)%nat → memo_ok memo →
  ∃ memo', fibonacci_memo fuel n memo = Some (Ref.fib (Z.to_nat n), memo')
           ∧ memo ⊆ memo' ∧ memo_ok memo'
           ∧ (2 <= n → memo' !! n = Some (Ref.fib (Z.to_nat n))).
Proof.
  induction fuel as [|fuel IH]; intros n memo Hn Hfuel Hm; [lia|].
  simpl. destruct (memo !! n) as [v|] eqn:Hl.
  - exists memo. pose proof (Hm _ _ Hl) as [_ ->]. done.
  - case_decide as Hle.
    + exists memo. rewrite fib_small by lia. split; [done|].
      split; [done|]. split; [done | lia].
    + destruct (IH (n - 1) memo) as (m1 & -> & Hsub1 & Hm1 & _);
        [lia | lia | done |].
      simpl.
      destruct (IH (n - 2) m1) as (m2 & -> & Hsub2 & Hm2 & _);
        [lia | lia | done |].
      simpl. rewrite lookup_insert_eq. simpl.
      rewrite <- fib_step by lia.
      eexists. split; [done|]. split.
      * etrans; [exact Hsub1|]. etrans; [exact Hsub2|].
        by apply memo_ok_insert_subseteq.
      * split; [by apply memo_ok_insert|]. intros _. apply lookup_insert_eq.
Qed.

(** X5: a dictionary passed by the caller is reused and extended: when all
    its entries are Fibonacci numbers at their index, the call returns F(n),
    keeps every entry it found, leaves a dictionary of the same kind, and for
    n >= 2 stores F(n) at n, so that a later call with that dictionary is
    answered from it. *)
Theorem fibonacci_reuses_memo (n : Z) (fuel : nat) (memo : gmap Z Z) :
  0 <= n → (Z.to_nat n < fuel)%nat → memo_ok memo →
  ∃ memo',
    fibonacci fuel n (Some memo) = Some (Ref.fib (Z.to_nat n), memo') ∧
    memo ⊆ memo' ∧ memo_ok memo' ∧
    (2 <= n →
       fibonacci 1 n (Some memo') = Some (Ref.fib (Z.to_nat n), memo')).
Proof.
  intros Hn Hfuel Hm.
  destruct (fibonacci_memo_extends fuel n memo Hn Hfuel Hm)
    as (memo' & Hrun & Hsub & Hok & Hat).
  exists memo'. split; [done|]. split; [done|]. split; [done|].
  intros Hn2. unfold fibonacci. simpl. by rewrite (Hat Hn2).
Qed.

Lemma fibonacci_reuses_memo_witness :
  ∃ memo',
    fibonacci 7 6 (Some {[3 := 2]}) = Some (8, memo') ∧
    {[3 := 2]} ⊆ memo' ∧ memo_ok memo' ∧
    (2 <= 6 → fibonacci 1 6 (Some memo') = Some (8, memo')).
Proof.
  apply (fibonacci_reuses_memo 6 7 {[3 := 2]}); [lia | simpl; lia |].
  intros k v Hk. apply lookup_singleton_Some in Hk as [<- <-].
  split; [lia | reflexivity].
Defined.

(** Starting from a dictionary whose keys are 2..m, a call leaves one whose
    keys are 2..max(m, n). *)
Lemma fibonacci_memo_keys fuel : ∀ n memo m,
  0 <= n → (Z.to_nat n < fuel)%nat →
  (∀ k, is_Some (memo !! k) ↔ 2 <= k <= m) →
  ∃ v memo', fibonacci_memo fuel n memo = Some (v, memo')
             ∧ ∀ k, is_Some (memo' !! k) ↔ 2 <= k <= Z.max m n.
Proof.
  induction fuel as [|fuel IH]; intros n memo m Hn Hfuel Hkeys; [lia|].
  simpl. destruct (memo !! n) as [v|] eqn:Hl.
  - exists v, memo. split; [done|]. intros k. rewrite Hkeys.
    assert (2 <= n <= m) by (apply Hkeys; by rewrite Hl). lia.
  - assert (¬ (2 <= n <= m)) as Hout.
    { intros Hin. apply Hkeys in Hin. rewrite Hl in Hin. by destruct Hin. }
    case_decide as Hle.
    + exists n, memo. split; [done|]. intros k. rewrite Hkeys. lia.
    + destruct (IH (n - 1) memo m) as (a & m1 & -> & Hk1); [lia | lia | done |].
      simpl.
      destruct (IH (n - 2) m1 (Z.max m (n - 1))) as (b & m2 & -> & Hk2);
        [lia | lia | done |].
      simpl. rewrite lookup_insert_eq. simpl.
      eexists _, _. split; [done|]. intros k.
      rewrite lookup_insert_is_Some, Hk2. lia.
Qed.

(** X6: after [fibonacci(n)] without a memo, the dictionary the call made
    holds exactly the indices 2..n (none for n <= 1): 0 and 1 are never
    stored, and every other index up to n is stored. *)
Theorem fibonacci_memo_indices (n : Z) (fuel : nat) :
  0 <= n → (Z.to_nat n < fuel)%nat →
  ∃ v memo', fibonacci fuel n None = Some (v, memo')
             ∧ ∀ k, is_Some (memo' !! k) ↔ 2 <= k <= n.
Proof.
  intros Hn Hfuel.
  destruct (fibonacci_memo_keys fuel n ∅ 0 Hn Hfuel) as (v & memo' & Hrun & Hk).
  - intros k. rewrite lookup_empty. split; [by intros [? ?] | lia].
  - exists v, memo'. split; [done|]. intros k. rewrite Hk. lia.
Qed.

Lemma fibonacci_memo_indices_witness :
  ∃ v memo', fibonacci 6 5 None = Some (v, memo')
             ∧ ∀ k, is_Some (memo' !! k) ↔ 2 <= k <= 5.
Proof. apply (fibonacci_memo_indices 5 6); [lia | simpl; lia]. Defined.

End FibonacciMemo.

Section ConjuntosEntradas.
Import Logica.

(** X7: the dictionary returned by [operacoes_conjuntos] has the four keys
    and no other; 'interseccao' and 'diferenca' are disjoint and together
    give A; 'diferenca_simetrica' is 'uniao' without 'interseccao'. *)
Theorem operacoes_conjuntos_entries (a b : gset Z) :
  let r := operacoes_conjuntos a b in
  (∀ k, is_Some (r !! k) ↔
        k ∈ ["uniao"; "interseccao"; "diferenca"; "diferenca_simetrica"]) ∧
  ∃ u i d s,
    r !! "uniao" = Some u ∧ r !! "interseccao" = Some i ∧
    r !! "diferenca" = Some d ∧ r !! "diferenca_simetrica" = Some s ∧
    i ∪ d = a ∧ i ∩ d = ∅ ∧ s = u ∖ i ∧
    (∀ x, x ∈ u ↔ x ∈ a ∨ x ∈ b) ∧ (∀ x, x ∈ i ↔ x ∈ a ∧ x ∈ b).
Proof.
  intros r. subst r. unfold operacoes_conjuntos. split.
  - intros k. rewrite !lookup_insert_is_Some, lookup_empty.
    rewrite !elem_of_cons, elem_of_nil. split.
    + intros [<- | [_ [<- | [_ [<- | [_ [<- | [_ [? Hk]]]]]]]]]; try tauto.
      discriminate.
    + intros [-> | [-> | [-> | [-> | []]]]].
      * do 3 (right; split; [done|]). by left.
      * do 2 (right; split; [done|]). by left.
      * right. split; [done|]. by left.
      * by left.
  - exists (a ∪ b), (a ∩ b), (a ∖ b), (set_xor a b).
    split; [rewrite !lookup_insert_ne by done; apply lookup_insert_eq|].
    split; [rewrite !lookup_insert_ne by done; apply lookup_insert_eq|].
    split; [rewrite !lookup_insert_ne by done; apply lookup_insert_eq|].
    split; [apply lookup_insert_eq|].
    unfold set_xor. split; [|split; [|split; [|split]]].
    + apply set_eq. intros x.
      rewrite elem_of_union, elem_of_intersection, elem_of_difference.
      destruct (decide (x ∈ b)); tauto.
    + apply set_eq. intros x.
      rewrite elem_of_intersection, elem_of_intersection, elem_of_difference.
      rewrite elem_of_empty. tauto.
    + apply set_eq. intros x.
      rewrite !elem_of_union, !elem_of_difference, elem_of_union,
        elem_of_intersection.
      destruct (decide (x ∈ a)), (decide (x ∈ b)); tauto.
    + intros x. by rewrite elem_of_union.
    + intros x. by rewrite elem_of_intersection.
Qed.

End ConjuntosEntradas.

Section PrimeirasOcorrencias.
Context {A : Type} `{EqDecision A}.
Implicit Types l : list A.

Lemma first_occurrences_elem l x : x ∈ Ref.first_occurrences l ↔ x ∈ l.
Proof.
  induction l as [|y l IH]; simpl; [done|].
  rewrite !elem_of_cons, list_elem_of_filter, IH.
  destruct (decide (x = y)); tauto.
Qed.

Lemma first_occurrences_NoDup l : NoDup (Ref.first_occurrences l).
Proof.
  induction l as [|y l IH]; simpl; [apply NoDup_nil_2|].
  apply NoDup_cons. split.
  - rewrite list_elem_of_filter. tauto.
  - by apply NoDup_filter.
Qed.

Lemma first_occurrences_sublist l : Ref.first_occurrences l `sublist_of` l.
Proof.
  induction l as [|y l IH]; simpl; [done|].
  apply sublist_skip. etrans; [apply sublist_filter | exact IH].
Qed.

Lemma first_occurrences_snoc l x :
  Ref.first_occurrences (l ++ [x])
  = Ref.first_occurrences l ++ (if decide (x ∈ l) then [] else [x]).
Proof.
  induction l as [|y l IH].
  - simpl. by destruct (decide (x ∈ [])) as [Hx%elem_of_nil|].
  - simpl. rewrite IH, filter_app. f_equal. f_equal.
    destruct (decide (x = y)) as [->|Hne].
    + rewrite (decide_True (P := y ∈ y :: l)) by apply list_elem_of_here.
      case_decide; [done|]. by rewrite filter_cons_False by tauto.
    + destruct (decide (x ∈ l)) as [Hin|Hnin].
      * by rewrite decide_True by (by apply list_elem_of_further).
      * rewrite decide_False by (rewrite elem_of_cons; tauto).
        by rewrite filter_cons_True.
Qed.

Lemma filter_all (P : A → Prop) `{!∀ x, Decision (P x)} l :
  (∀ x, x ∈ l → P x) → filter P l = l.
Proof.
  induction l as [|y l IH]; intros Hall; [done|].
  rewrite filter_cons_True by (apply Hall, list_elem_of_here).
  f_equal. apply IH. intros x Hx. by apply Hall, list_elem_of_further.
Qed.

Lemma first_occurrences_id l : NoDup l → Ref.first_occurrences l = l.
Proof.
  induction 1 as [|y l Hy Hnd IH]; simpl; [done|].
  rewrite IH. f_equal. apply filter_all. intros x Hx ->. done.
Qed.

End PrimeirasOcorrencias.

Section Duplicatas.
Import Logica.

Lemma remover_duplicatas_state (lista : list Z) :
  ∃ visto, foldl remover_duplicatas_passo (∅, []) lista
           = (visto, Ref.first_occurrences lista)
           ∧ ∀ y, y ∈ visto ↔ y ∈ lista.
Proof.
  induction lista as [|x l IH] using rev_ind.
  - exists ∅. split; [done|]. intros y.
    rewrite elem_of_empty, elem_of_nil. done.
  - destruct IH as (visto & Hrun & Hvisto).
    rewrite foldl_app, Hrun. simpl.
    rewrite first_occurrences_snoc.
    destruct (decide (x ∈ l)) as [Hx|Hx].
    + exists visto. rewrite decide_False by (rewrite Hvisto; tauto).
      rewrite app_nil_r. split; [done|]. intros y.
      rewrite elem_of_app, Hvisto, elem_of_cons, elem_of_nil.
      split; [tauto|]. intros [? | [-> | []]]; done.
    + exists ({[x]} ∪ visto). rewrite decide_True by (by rewrite Hvisto).
      split; [done|]. intros y.
      rewrite elem_of_union, elem_of_singleton, elem_of_app, Hvisto.
      rewrite elem_of_cons, elem_of_nil. tauto.
Qed.

Lemma remover_duplicatas_first_occurrences (lista : list Z) :
  remover_duplicatas lista = Ref.first_occurrences lista.
Proof.
  unfold remover_duplicatas.
  destruct (remover_duplicatas_state lista) as (visto & -> & _). done.
Qed.

(** X8: [remover_duplicatas] returns each distinct item of the list once, in
    the order of first occurrence: the result has no repetition, has the
    same items as the list, and is a subsequence of it. *)
Theorem remover_duplicatas_correct (lista : list Z) :
  remover_duplicatas lista = Ref.first_occurrences lista ∧
  NoDup (remover_duplicatas lista) ∧
  (∀ x, x ∈ remover_duplicatas lista ↔ x ∈ lista) ∧
  remover_duplicatas lista `sublist_of` lista.
Proof.
  rewrite remover_duplicatas_first_occurrences.
  split; [done|]. split; [apply first_occurrences_NoDup|].
  split; [apply first_occurrences_elem | apply first_occurrences_sublist].
Qed.

(** X9: [remover_duplicatas] is idempotent, and it returns a list without
    repetition as it is. *)
Theorem remover_duplicatas_idempotent (lista : list Z) :
  remover_duplicatas (remover_duplicatas lista) = remover_duplicatas lista ∧
  (NoDup lista → remover_duplicatas lista = lista).
Proof.
  rewrite !remover_duplicatas_first_occurrences. split.
  - apply first_occurrences_id, first_occurrences_NoDup.
  - apply first_occurrences_id.
Qed.

End Duplicatas.

Section Frequencia.
Import Logica.

Lemma dict_get_map (keys : list string) (f : string → Z) (w : string) :
  dict_get w 0 (map (λ k, (k, f k)) keys)
  = if decide (w ∈ keys) then f w else 0.
Proof.
  induction keys as [|k ks IH]; simpl.
  - by destruct (decide (w ∈ [])) as [Hw%elem_of_nil|].
  - destruct (decide (k = w)) as [->|Hne].
    + by rewrite decide_True by apply list_elem_of_here.
    + rewrite IH. destruct (decide (w ∈ ks)) as [Hin|Hnin].
      * by rewrite decide_True by (by apply list_elem_of_further).
      * rewrite decide_False; [done|]. rewrite elem_of_cons. intros [?|?]; done.
Qed.

Lemma dict_set_map_present (keys : list string) (f g : string → Z)
    (w : string) :
  NoDup keys → w ∈ keys → (∀ k, k ≠ w → g k = f k) →
  dict_set w (g w) (map (λ k, (k, f k)) keys) = map (λ k, (k, g k)) keys.
Proof.
  intros Hnd Hin Hg. induction Hnd as [|k ks Hk Hnd IH]; simpl.
  - by apply elem_of_nil in Hin.
  - destruct (decide (k = w)) as [->|Hne].
    + f_equal. apply map_ext_in. intros k' Hk'%list_elem_of_In.
      rewrite (Hg k'); [done|]. by intros ->.
    + rewrite (Hg k) by done. f_equal. apply IH.
      apply elem_of_cons in Hin as [->|Hin]; done.
Qed.

Lemma dict_set_map_absent (keys : list string) (f : string → Z)
    (w : string) (v : Z) :
  w ∉ keys →
  dict_set w v (map (λ k, (k, f k)) keys)
  = map (λ k, (k, f k)) keys ++ [(w, v)].
Proof.
  intros Hnin. induction keys as [|k ks IH]; simpl; [done|].
  apply not_elem_of_cons in Hnin as [Hne Hnin].
  rewrite decide_False by done. f_equal. by apply IH.
Qed.

Lemma occurrences_snoc (w k : string) (l : list string) :
  Ref.occurrences k (l ++ [w])
  = Ref.occurrences k l + (if decide (w = k) then 1 else 0).
Proof.
  unfold Ref.occurrences. rewrite filter_app, length_app.
  destruct (decide (w = k)) as [->|Hne].
  - rewrite filter_cons_True by done. simpl. lia.
  - rewrite filter_cons_False by done. simpl. lia.
Qed.

Lemma occurrences_absent (k : string) (l : list string) :
  k ∉ l → Ref.occurrences k l = 0.
Proof.
  intros Hk. unfold Ref.occurrences.
  induction l as [|x l IH]; [done|].
  apply not_elem_of_cons in Hk as [Hne Hk].
  rewrite filter_cons_False by (intros ->; done). by apply IH.
Qed.

Lemma occurrences_present (k : string) (l : list string) :
  k ∈ l → 1 <= Ref.occurrences k l.
Proof.
  intros Hk. unfold Ref.occurrences.
  induction l as [|x l IH]; [by apply elem_of_nil in Hk|].
  destruct (decide (x = k)) as [->|Hne].
  - rewrite filter_cons_True by done. simpl. lia.
  - rewrite filter_cons_False by done. apply IH.
    apply elem_of_cons in Hk as [->|Hk]; done.
Qed.

Lemma keys_of_map (keys : list string) (f : string → Z) :
  (map (λ k, (k, f k)) keys).*1 = keys.
Proof.
  induction keys as [|k ks IH]; [done|].
  change (k :: (map (λ k, (k, f k)) ks).*1 = k :: ks). by rewrite IH.
Qed.

(** The dictionary after the loop has read the words [palavras]. *)
Lemma contar_frequencia_loop (palavras : list string) :
  foldl (λ frequencia palavra,
           dict_set palavra (dict_get palavra 0 frequencia + 1) frequencia)
        [] palavras
  = map (λ w, (w, Ref.occurrences w palavras))
        (Ref.first_occurrences palavras).
Proof.
  induction palavras as [|w l IH] using rev_ind; [done|].
  rewrite foldl_app, IH. simpl.
  rewrite first_occurrences_snoc, dict_get_map.
  destruct (decide (w ∈ l)) as [Hin|Hnin].
  - rewrite decide_True by (by apply first_occurrences_elem).
    rewrite app_nil_r.
    replace (Ref.occurrences w l + 1) with (Ref.occurrences w (l ++ [w]))
      by (rewrite occurrences_snoc; by rewrite decide_True).
    apply (dict_set_map_present _ _ (λ k, Ref.occurrences k (l ++ [w]))).
    + apply first_occurrences_NoDup.
    + by apply first_occurrences_elem.
    + intros k Hk. rewrite occurrences_snoc.
      rewrite decide_False by done. lia.
  - rewrite decide_False by (by rewrite first_occurrences_elem).
    rewrite dict_set_map_absent by (by rewrite first_occurrences_elem).
    rewrite map_app. simpl. f_equal.
    + apply map_ext_in. intros k Hk%list_elem_of_In.
      rewrite first_occurrences_elem in Hk.
      rewrite occurrences_snoc.
      rewrite decide_False by (intros ->; contradiction). f_equal. lia.
    + rewrite occurrences_snoc, occurrences_absent by done.
      by rewrite decide_True.
Qed.

(** X10: [contar_frequencia] returns, for each distinct word of the
    lower-cased text split at white space, in the order of first occurrence,
    the word with its number of occurrences; no key is repeated and every
    count is at least 1.  A text with no word gives the empty dictionary. *)
Theorem contar_frequencia_correct (texto : string) :
  let palavras := PyStr.split (PyStr.lower texto) in
  contar_frequencia texto
    = map (λ w, (w, Ref.occurrences w palavras))
          (Ref.first_occurrences palavras) ∧
  NoDup (contar_frequencia texto).*1 ∧
  (∀ w c, (w, c) ∈ contar_frequencia texto → w ∈ palavras ∧ 1 <= c) ∧
  (palavras = [] → contar_frequencia texto = []).
Proof.
  intros palavras. unfold contar_frequencia. fold palavras.
  rewrite contar_frequencia_loop. split; [done|]. split; [|split].
  - rewrite keys_of_map. apply first_occurrences_NoDup.
  - intros w c (k & [= -> ->] & Hk)%list_elem_of_fmap.
    rewrite first_occurrences_elem in Hk.
    split; [done|]. by apply occurrences_present.
  - by intros ->.
Qed.

Lemma insert_desc_perm (x : string * Z) (l : list (string * Z)) :
  insert_desc x l ≡ₚ x :: l.
Proof.
  induction l as [|y l IH]; simpl; [done|].
  case_decide; [|done]. rewrite IH. apply Permutation_swap.
Qed.

Lemma insert_desc_HdRel (z x : string * Z) (l : list (string * Z)) :
  Ref.by_count_desc z x → HdRel Ref.by_count_desc z l →
  HdRel Ref.by_count_desc z (insert_desc x l).
Proof.
  intros Hzx Hzl. destruct l as [|y l]; simpl.
  - by apply HdRel_cons.
  - case_decide; apply HdRel_cons; [|done]. by inversion Hzl.
Qed.

Lemma insert_desc_sorted (x : string * Z) (l : list (string * Z)) :
  Sorted Ref.by_count_desc l → Sorted Ref.by_count_desc (insert_desc x l).
Proof.
  induction 1 as [|y l Hs IH Hhd]; simpl.
  - apply Sorted_cons; [apply Sorted_nil | apply HdRel_nil].
  - case_decide as Hlt.
    + apply Sorted_cons; [done|].
      apply insert_desc_HdRel; [unfold Ref.by_count_desc; lia | done].
    + apply Sorted_cons; [by apply Sorted_cons|].
      apply HdRel_cons. unfold Ref.by_count_desc. lia.
Qed.

Lemma insert_desc_stable (c : Z) (x : string * Z) (l : list (string * Z)) :
  filter (λ y, y.2 = c) (insert_desc x l) = filter (λ y, y.2 = c) (x :: l).
Proof.
  induction l as [|y l IH]; simpl; [done|].
  case_decide as Hlt; [|done].
  rewrite (filter_cons _ y), IH, !(filter_cons _ x), (filter_cons _ y).
  destruct (decide (x.2 = c)), (decide (y.2 = c)); try done. lia.
Qed.

Lemma sorted_by_count_desc_spec (items : list (string * Z)) :
  sorted_by_count_desc items ≡ₚ items ∧
  Sorted Ref.by_count_desc (sorted_by_count_desc items) ∧
  ∀ c, filter (λ y, y.2 = c) (sorted_by_count_desc items)
       = filter (λ y, y.2 = c) items.
Proof.
  unfold sorted_by_count_desc.
  induction items as [|x l (Hperm & Hsort & Hstable)]; simpl.
  - split; [done|]. split; [apply Sorted_nil | done].
  - split; [by rewrite insert_desc_perm, Hperm|].
    split; [by apply insert_desc_sorted|].
    intros c. rewrite insert_desc_stable, !(filter_cons _ x), Hstable. done.
Qed.

(** X11: for n >= 0, [top_n_palavras(texto, n)] is the first n entries (all
    of them when there are fewer) of the ranking of [contar_frequencia]: the
    same entries, by non-increasing count, entries of equal count in the
    order of the dictionary. *)
Theorem top_n_palavras_ranking (texto : string) (n : Z) :
  0 <= n →
  ∃ ranking,
    top_n_palavras texto n = take (Z.to_nat n) ranking ∧
    ranking ≡ₚ contar_frequencia texto ∧
    Sorted Ref.by_count_desc ranking ∧
    (∀ c, filter (λ y, y.2 = c) ranking
          = filter (λ y, y.2 = c) (contar_frequencia texto)) ∧
    Py.len (top_n_palavras texto n)
      = Z.min n (Py.len (contar_frequencia texto)).
Proof.
  intros Hn.
  destruct (sorted_by_count_desc_spec (contar_frequencia texto))
    as (Hperm & Hsort & Hstable).
  exists (sorted_by_count_desc (contar_frequencia texto)).
  assert (top_n_palavras texto n
          = take (Z.to_nat n) (sorted_by_count_desc (contar_frequencia texto)))
    as Heq.
  { unfold top_n_palavras, Py.slice, Py.adjust, Py.len. simpl.
    rewrite decide_False by lia. rewrite Nat.sub_0_r.
    set (r := sorted_by_count_desc (contar_frequencia texto)).
    destruct (decide (n <= Z.of_nat (length r))).
    - f_equal. lia.
    - rewrite (take_ge r (Z.to_nat n)) by lia. apply take_ge. lia. }
  split; [done|]. split; [done|]. split; [done|]. split; [done|].
  rewrite Heq. unfold Py.len. rewrite length_take.
  rewrite (Permutation_length Hperm). lia.
Qed.

Lemma top_n_palavras_ranking_witness :
  ∃ ranking,
    top_n_palavras "b a a c c d" 3 = take (Z.to_nat 3) ranking ∧
    ranking ≡ₚ contar_frequencia "b a a c c d" ∧
    Sorted Ref.by_count_desc ranking ∧
    (∀ c, filter (λ y, y.2 = c) ranking
          = filter (λ y, y.2 = c) (contar_frequencia "b a a c c d")) ∧
    Py.len (top_n_palavras "b a a c c d" 3)
      = Z.min 3 (Py.len (contar_frequencia "b a a c c d")).
Proof. apply (top_n_palavras_ranking "b a a c c d" 3). lia. Defined.

End Frequencia.

Section Pares.
Import Logica.

(** What the loop of [encontrar_pares] has collected after reading a list:
    [visto] holds the items read, and [pares] a pair for each item whose
    complement was read before it. *)
Lemma encontrar_pares_state (alvo : Z) (lista : list Z) :
  (∀ y, y ∈ (foldl (encontrar_pares_passo alvo) ([], ∅) lista).2 ↔ y ∈ lista) ∧
  ∀ p, p ∈ (foldl (encontrar_pares_passo alvo) ([], ∅) lista).1 ↔
       ∃ pre x post,
         lista = pre ++ x :: post ∧ alvo - x ∈ pre ∧
         p = (Z.min x (alvo - x), Z.max x (alvo - x)).
Proof.
  induction lista as [|x l [IHv IHp]] using rev_ind.
  - simpl. split.
    + intros y. rewrite elem_of_empty, elem_of_nil. done.
    + intros p. rewrite elem_of_nil. split; [done|].
      intros (pre & y & post & Heq & _). by destruct pre.
  - rewrite foldl_app. simpl.
    destruct (foldl (encontrar_pares_passo alvo) ([], ∅) l)
      as [pares visto] eqn:Hst.
    simpl in *. split.
    + intros y. rewrite elem_of_union, elem_of_singleton, IHv, elem_of_app.
      rewrite elem_of_cons, elem_of_nil. tauto.
    + intros p.
      assert (p ∈ (if decide (alvo - x ∈ visto)
                   then pares ++ [(Z.min x (alvo - x), Z.max x (alvo - x))]
                   else pares)
              ↔ p ∈ pares ∨ (alvo - x ∈ l ∧
                  p = (Z.min x (alvo - x), Z.max x (alvo - x)))) as ->.
      { case_decide as Hc; rewrite IHv in Hc.
        - rewrite elem_of_app, elem_of_cons, elem_of_nil. tauto.
        - tauto. }
      rewrite IHp. split.
      * intros [(pre & y & post & -> & Hc & ->) | [Hc ->]].
        -- exists pre, y, (post ++ [x]). by rewrite <- app_assoc.
        -- by exists l, x, [].
      * intros (pre & y & post & Heq & Hc & ->).
        destruct post as [|z post _] using rev_ind.
        -- apply app_inj_tail in Heq as [-> ->]. by right.
        -- left. exists pre, y, post.
           rewrite app_comm_cons, app_assoc in Heq.
           apply app_inj_tail in Heq as [-> _]. done.
Qed.

(** X12: [encontrar_pares] returns exactly the pairs (a, b) with a <= b and
    a + b = alvo whose two numbers stand at two different positions of the
    list; a number is paired with itself only when it occurs twice. *)
Theorem encontrar_pares_correct (lista : list Z) (alvo a b : Z) :
  (a, b) ∈ encontrar_pares lista alvo ↔
  a <= b ∧ a + b = alvo ∧
  ∃ i j : nat, (i < j)%nat ∧
    ((lista !! i = Some a ∧ lista !! j = Some b) ∨
     (lista !! i = Some b ∧ lista !! j = Some a)).
Proof.
  unfold encontrar_pares, encontrar_pares_lista.
  rewrite elem_of_list_to_set.
  destruct (encontrar_pares_state alvo lista) as [_ Hp]. rewrite Hp.
  split.
  - intros (pre & x & post & -> & Hc & [= -> ->]).
    split; [lia|]. split; [lia|].
    apply list_elem_of_lookup_1 in Hc as [i Hi].
    exists i, (length pre).
    split; [by eapply lookup_lt_Some|].
    assert ((pre ++ x :: post) !! i = Some (alvo - x)) as Hi'
      by (by apply lookup_app_l_Some).
    assert ((pre ++ x :: post) !! length pre = Some x) as Hj
      by (by apply list_lookup_middle).
    rewrite Hi', Hj.
    destruct (decide (x <= alvo - x)).
    + right. rewrite Z.min_l, Z.max_r by lia. done.
    + left. rewrite Z.min_r, Z.max_l by lia. done.
  - intros (Hab & Hsum & i & j & Hij & Hpos).
    assert (∃ u v, lista !! i = Some u ∧ lista !! j = Some v ∧
                   u + v = alvo ∧ a = Z.min v u ∧ b = Z.max v u)
      as (u & v & Hu & Hv & Huv & -> & ->).
    { destruct Hpos as [[Hi Hj] | [Hi Hj]].
      - exists a, b. repeat split; try done; lia.
      - exists b, a. repeat split; try done; lia. }
    exists (take j lista), v, (drop (S j) lista).
    split; [by rewrite take_drop_middle|].
    replace (alvo - v) with u by lia. split; [|done].
    apply list_elem_of_lookup_2 with i. by rewrite lookup_take_lt.
Qed.

End Pares.

(** * Further properties of [resolucao_problemas.py] *)

Section DivisoresOrdem.
Import Resolucao.

Lemma seqZ_strongly_sorted (n : nat) : ∀ m,
  StronglySorted Z.lt (seqZ m (Z.of_nat n)).
Proof.
  induction n as [|n IH]; intros m.
  - apply SSorted_nil.
  - rewrite seqZ_cons by lia.
    replace (Z.pred (Z.of_nat (S n))) with (Z.of_nat n) by lia.
    apply SSorted_cons; [apply IH|].
    apply Forall_forall. intros x Hx%elem_of_seqZ. lia.
Qed.

Lemma strongly_sorted_filter (P : Z → Prop) `{!∀ x, Decision (P x)}
    (l : list Z) :
  StronglySorted Z.lt l → StronglySorted Z.lt (filter P l).
Proof.
  induction 1 as [|x l Hs IH Hall]; [apply SSorted_nil|].
  rewrite filter_cons. case_decide; [|done].
  apply SSorted_cons; [done|].
  apply Forall_forall. intros y [_ Hy]%list_elem_of_filter.
  rewrite Forall_forall in Hall. by apply Hall.
Qed.

Lemma encontrar_divisores_small (n : Z) :
  n <= 1 → encontrar_divisores n = [].
Proof.
  intros Hn. unfold encontrar_divisores, Py.range, seqZ.
  by replace (Z.to_nat (n - 1)) with 0%nat by lia.
Qed.

(** X13: [encontrar_divisores(n)] lists exactly the proper divisors of n, in
    strictly increasing order; it is empty for every n <= 1 (zero and the
    negative numbers included) and starts with 1 for n >= 2. *)
Theorem encontrar_divisores_correct (n : Z) :
  (∀ d, d ∈ encontrar_divisores n ↔ Ref.proper_divisor d n) ∧
  Sorted Z.lt (encontrar_divisores n) ∧
  (n <= 1 → encontrar_divisores n = []) ∧
  (2 <= n → head (encontrar_divisores n) = Some 1).
Proof.
  split; [apply encontrar_divisores_spec|]. split; [|split].
  - apply StronglySorted_Sorted. unfold encontrar_divisores, Py.range.
    apply strongly_sorted_filter.
    destruct (decide (0 <= n - 1)) as [Hpos|Hneg].
    + rewrite <- (Z2Nat.id (n - 1)) by done. apply seqZ_strongly_sorted.
    + unfold seqZ. replace (Z.to_nat (n - 1)) with 0%nat by lia.
      apply SSorted_nil.
  - apply encontrar_divisores_small.
  - intros Hn. unfold encontrar_divisores, Py.range.
    rewrite seqZ_cons by lia.
    rewrite filter_cons_True; [done|]. apply Z.mod_1_r.
Qed.

(** X14: [eh_numero_perfeito(n)] is true exactly when n equals the sum of
    its proper divisors; by that test 0 is reported perfect (its list of
    divisors is empty) and no negative number is. *)
Theorem eh_numero_perfeito_correct (n : Z) :
  (eh_numero_perfeito n = true ↔ Ref.perfect n) ∧
  eh_numero_perfeito 0 = true ∧
  (n < 0 → eh_numero_perfeito n = false).
Proof.
  split; [|split].
  - unfold eh_numero_perfeito. rewrite bool_decide_eq_true.
    symmetry. apply perfect_sum.
  - reflexivity.
  - intros Hn. unfold eh_numero_perfeito.
    rewrite encontrar_divisores_small by lia.
    apply bool_decide_eq_false_2. simpl. lia.
Qed.

Lemma soma_dos_divisores_sum (n s : Z) :
  Ref.soma_dos_divisores n s ↔ s = Py.sum (encontrar_divisores n).
Proof.
  split.
  - intros (ds & Hnd & Hds & ->). apply sum_permutation.
    apply NoDup_Permutation; [done | apply encontrar_divisores_NoDup |].
    intros d. by rewrite Hds, encontrar_divisores_spec.
  - intros ->. exists (encontrar_divisores n).
    split; [apply encontrar_divisores_NoDup|].
    split; [apply encontrar_divisores_spec | done].
Qed.

(** X15: [sao_numeros_amigos(a, b)] is true exactly when b is the sum of the
    proper divisors of a and a is the sum of the proper divisors of b; it is
    symmetric in its two arguments, and on the diagonal it is the
    perfect-number test. *)
Theorem sao_numeros_amigos_correct (a b : Z) :
  (sao_numeros_amigos a b = true ↔
   Ref.soma_dos_divisores a b ∧ Ref.soma_dos_divisores b a) ∧
  sao_numeros_amigos a b = sao_numeros_amigos b a ∧
  sao_numeros_amigos a a = eh_numero_perfeito a.
Proof.
  unfold sao_numeros_amigos, eh_numero_perfeito. simpl.
  split; [|split].
  - rewrite andb_true_iff, !bool_decide_eq_true, !soma_dos_divisores_sum.
    split; intros [H1 H2]; split; symmetry; done.
  - apply andb_comm.
  - rewrite andb_diag. apply bool_decide_ext.
    split; intros Heq; symmetry; exact Heq.
Qed.

End DivisoresOrdem.

Section RotacaoComposta.
Import Resolucao.

Lemma rotacionar_array_nil (k : Z) : rotacionar_array [] k = [].
Proof. reflexivity. Qed.

Lemma rotacionar_array_length (array : list Z) (k : Z) :
  length (rotacionar_array array k) = length array.
Proof.
  destruct (decide (array = [])) as [->|Hne]; [done|].
  rewrite rotacionar_array_drop_take by done.
  rewrite length_app, length_drop, length_take. lia.
Qed.

(** The item at position [j] of the rotated list comes from position
    [(j - k) mod len]. *)
Lemma rotacionar_array_lookup (array : list Z) (k : Z) (j : nat) :
  (j < length array)%nat →
  rotacionar_array array k !! j
  = array !! Z.to_nat ((Z.of_nat j - k) `mod` Py.len array).
Proof.
  intros Hj.
  assert (array ≠ []) as Hne by (intros ->; simpl in Hj; lia).
  rewrite rotacionar_array_drop_take by done.
  unfold Py.len. set (n := length array) in *.
  assert (0 < Z.of_nat n) as Hn by lia.
  rewrite <- Zminus_mod_idemp_r.
  pose proof (Z.mod_pos_bound k (Z.of_nat n) Hn) as Hp.
  set (p := k `mod` Z.of_nat n) in *. clearbody p.
  destruct (decide (Z.of_nat j < p)) as [Hlt|Hge].
  - replace ((Z.of_nat j - p) `mod` Z.of_nat n) with (Z.of_nat j - p + Z.of_nat n).
    2:{ apply Z.mod_unique_pos with (q := -1); lia. }
    rewrite lookup_app_l by (rewrite length_drop; lia).
    rewrite lookup_drop. f_equal. lia.
  - rewrite Z.mod_small by lia.
    rewrite lookup_app_r by (rewrite length_drop; lia).
    rewrite length_drop, lookup_take_lt by lia. f_equal. lia.
Qed.

Lemma rotacionar_array_compose (array : list Z) (a b : Z) :
  rotacionar_array (rotacionar_array array a) b
  = rotacionar_array array (a + b).
Proof.
  destruct (decide (array = [])) as [->|Hne]; [done|].
  apply list_eq_same_length with (length array);
    [by rewrite !rotacionar_array_length
    | by rewrite !rotacionar_array_length |].
  intros j x y Hj.
  assert (0 < Py.len array) as Hn
    by (unfold Py.len; destruct array; [done | simpl; lia]).
  unfold Py.len in Hn.
  pose proof (Z.mod_pos_bound (Z.of_nat j - b) _ Hn) as Hq.
  rewrite (rotacionar_array_lookup (rotacionar_array array a))
    by (rewrite rotacionar_array_length; lia).
  unfold Py.len. rewrite rotacionar_array_length.
  rewrite (rotacionar_array_lookup array a) by lia.
  rewrite (rotacionar_array_lookup array (a + b)) by lia.
  unfold Py.len. rewrite Z2Nat.id by lia.
  rewrite Zminus_mod_idemp_l.
  replace (Z.of_nat j - b - a) with (Z.of_nat j - (a + b)) by lia.
  congruence.
Qed.

Lemma rotacionar_array_0 (array : list Z) : rotacionar_array array 0 = array.
Proof.
  destruct (decide (array = [])) as [->|Hne]; [done|].
  rewrite rotacionar_array_drop_take by done.
  rewrite Z.mod_0_l by (unfold Py.len; destruct array; [done | simpl; lia]).
  simpl. by rewrite Nat.sub_0_r, drop_all, firstn_all.
Qed.

(** X16: rotations compose by adding their amounts, so rotating by -k undoes
    rotating by k and rotating by the length changes nothing; a rotation
    keeps the length and the items of the list. *)
Theorem rotacionar_array_composition (array : list Z) (a b : Z) :
  rotacionar_array (rotacionar_array array a) b
    = rotacionar_array array (a + b) ∧
  rotacionar_array (rotacionar_array array a) (- a) = array ∧
  rotacionar_array array (Py.len array) = array ∧
  length (rotacionar_array array a) = length array ∧
  rotacionar_array array a ≡ₚ array.
Proof.
  split; [apply rotacionar_array_compose|]. split; [|split; [|split]].
  - rewrite rotacionar_array_compose, Z.add_opp_diag_r.
    apply rotacionar_array_0.
  - destruct (decide (array = [])) as [->|Hne]; [done|].
    rewrite rotacionar_array_drop_take by done.
    rewrite Z_mod_same_full. simpl.
    by rewrite Nat.sub_0_r, drop_all, firstn_all.
  - apply rotacionar_array_length.
  - destruct (decide (array = [])) as [->|Hne]; [done|].
    rewrite rotacionar_array_drop_take by done.
    rewrite Permutation_app_comm. by rewrite take_drop.
Qed.

End RotacaoComposta.

Section MdcCasos.
Import Resolucao.
Context {A : Type} `{EqDecision A}.

Lemma sublist_full (l k : list A) :
  l `sublist_of` k → (length k <= length l)%nat → l = k.
Proof.
  induction 1 as [|x l k Hs IH|x l k Hs IH]; simpl; intros Hlen; [done| |].
  - f_equal. apply IH. lia.
  - apply sublist_length in Hs. lia.
Qed.

(** X17: the longest common subsequence of a sequence with itself is the
    sequence; with the empty sequence, on either side, it is empty; and the
    length of the result does not depend on the order of the two
    arguments. *)
Theorem mdc_sequencias_cases (seq1 seq2 : list A) :
  mdc_sequencias seq1 seq1 = Some seq1 ∧
  mdc_sequencias seq1 [] = Some [] ∧
  mdc_sequencias [] seq2 = Some [] ∧
  length <$> mdc_sequencias seq1 seq2 = length <$> mdc_sequencias seq2 seq1.
Proof.
  split; [|split; [|split]].
  - destruct (mdc_sequencias_longest seq1 seq1) as (r & -> & Hs & _ & Hmax).
    f_equal. apply sublist_full; [done|]. by apply Hmax.
  - destruct (mdc_sequencias_longest seq1 []) as (r & -> & _ & Hs & _).
    by apply sublist_nil_r in Hs as ->.
  - destruct (mdc_sequencias_longest [] seq2) as (r & -> & Hs & _ & _).
    by apply sublist_nil_r in Hs as ->.
  - destruct (mdc_sequencias_longest seq1 seq2) as (r & -> & Hr1 & Hr2 & Hmax).
    destruct (mdc_sequencias_longest seq2 seq1) as (r' & -> & Hr1' & Hr2' & Hmax').
    simpl. f_equal.
    specialize (Hmax r' Hr2' Hr1'). specialize (Hmax' r Hr2 Hr1). lia.
Qed.

End MdcCasos.

Section SenhaMonotona.
Import Resolucao.

Lemma chars_app (s t : string) :
  PyStr.chars (s +:+ t) = PyStr.chars s ++ PyStr.chars t.
Proof.
  unfold PyStr.chars. induction s as [|c s IH]; [done|].
  change (String c s +:+ t) with (String c (s +:+ t)).
  simpl. by rewrite IH.
Qed.

Lemma len_chars (s : string) : PyStr.len s = Py.len (PyStr.chars s).
Proof.
  unfold PyStr.len, Py.len, PyStr.chars. f_equal.
  induction s as [|c s IH]; simpl; [done | by rewrite IH].
Qed.

Lemma re_search_app_l (classe : ascii → bool) (s t : string) :
  negb (PyStr.re_search classe (s +:+ t)) = true →
  negb (PyStr.re_search classe s) = true.
Proof.
  unfold PyStr.re_search. rewrite chars_app, existsb_app.
  by destruct (existsb classe (PyStr.chars s)).
Qed.

(** X18: appending characters to a password never adds a reason: every
    reason reported for [s + t] is reported for [s], so a password that is
    valid stays valid when it is extended. *)
Theorem validar_senha_forte_monotone (s t : string) :
  (∀ m, m ∈ (validar_senha_forte (s +:+ t)).2 →
        m ∈ (validar_senha_forte s).2) ∧
  ((validar_senha_forte s).1 = true →
   (validar_senha_forte (s +:+ t)).1 = true).
Proof.
  destruct (validar_senha_forte_cases s)
    as (Hflag & _ & H1 & H2 & H3 & H4 & H5).
  destruct (validar_senha_forte_cases (s +:+ t))
    as (Hflag' & Hsub' & H1' & H2' & H3' & H4' & H5').
  cbv zeta in *.
  assert (Hmono : ∀ m, m ∈ (validar_senha_forte (s +:+ t)).2 →
                       m ∈ (validar_senha_forte s).2).
  { intros m Hm.
    assert (m ∈ Ref.razoes) as Hin by (by eapply elem_of_sublist).
    unfold Ref.razoes in Hin.
    repeat (apply elem_of_cons in Hin as [-> | Hin]).
    - apply H1. apply H1' in Hm.
      rewrite bool_decide_eq_true in *.
      rewrite !len_chars, chars_app in *. unfold Py.len in *.
      rewrite length_app in Hm. lia.
    - apply H2. apply H2' in Hm. by eapply re_search_app_l.
    - apply H3. apply H3' in Hm. by eapply re_search_app_l.
    - apply H4. apply H4' in Hm. by eapply re_search_app_l.
    - apply H5. apply H5' in Hm. by eapply re_search_app_l.
    - by apply elem_of_nil in Hin. }
  split; [exact Hmono|].
  intros Hvalid. apply Hflag in Hvalid. apply Hflag'.
  destruct ((validar_senha_forte (s +:+ t)).2) as [|m l]; [done|].
  specialize (Hmono m (list_elem_of_here _ _)).
  rewrite Hvalid in Hmono. by apply elem_of_nil in Hmono.
Qed.

End SenhaMonotona.

Section Palindromo.
Import Resolucao.

Lemma chars_lower (s : string) :
  PyStr.chars (PyStr.lower s) = PyStr.lower_char <$> PyStr.chars s.
Proof.
  unfold PyStr.chars. induction s as [|c s IH]; simpl; [done | by rewrite IH].
Qed.

Lemma lower_char_idemp (c : ascii) :
  PyStr.lower_char (PyStr.lower_char c) = PyStr.lower_char c.
Proof. destruct c as [[] [] [] [] [] [] [] []]; reflexivity. Qed.

(** After lower-casing, the characters kept are the ASCII letters and
    digits. *)
Lemma lower_char_alfanumerica (c : ascii) :
  classe_alfanumerica (PyStr.lower_char c)
  = PyStr.between 65 90 c || PyStr.between 97 122 c || PyStr.between 48 57 c.
Proof. destruct c as [[] [] [] [] [] [] [] []]; reflexivity. Qed.

(** The text that [eh_palindromo] compares with its reverse. *)
Lemma eh_palindromo_unfold (s : string) :
  eh_palindromo s
  = bool_decide
      (filter (λ c, classe_alfanumerica c = true)
              (PyStr.lower_char <$> PyStr.chars s)
       = reverse (filter (λ c, classe_alfanumerica c = true)
                         (PyStr.lower_char <$> PyStr.chars s))).
Proof. unfold eh_palindromo. by rewrite chars_lower. Qed.

(** X19: a text and its mirror image get the same answer from
    [eh_palindromo], and a text followed by its mirror image is a
    palindrome. *)
Theorem eh_palindromo_mirror (s t : string) :
  (PyStr.chars t = reverse (PyStr.chars s) →
   eh_palindromo t = eh_palindromo s) ∧
  (PyStr.chars t = PyStr.chars s ++ reverse (PyStr.chars s) →
   eh_palindromo t = true).
Proof.
  rewrite !eh_palindromo_unfold. split; intros ->.
  - rewrite fmap_reverse, filter_reverse, reverse_involutive.
    apply bool_decide_ext. split; intros Heq; symmetry; exact Heq.
  - apply bool_decide_eq_true_2.
    rewrite fmap_app, filter_app, fmap_reverse, filter_reverse.
    by rewrite reverse_app, reverse_involutive.
Qed.

(** X20: on a text whose characters all have a code point below 256,
    [eh_palindromo] ignores case and every character that is not an ASCII
    letter or digit: lower-casing the text, or inserting such a character
    (itself below code point 256) anywhere in it, does not change the
    answer. *)
Theorem eh_palindromo_ignores (s s1 s2 : string) (c : ascii) :
  eh_palindromo (PyStr.lower s) = eh_palindromo s ∧
  (PyStr.between 65 90 c || PyStr.between 97 122 c || PyStr.between 48 57 c
     = false →
   eh_palindromo (s1 +:+ String c s2) = eh_palindromo (s1 +:+ s2)).
Proof.
  split.
  - rewrite !eh_palindromo_unfold, chars_lower, <- list_fmap_compose.
    rewrite (list_fmap_ext (PyStr.lower_char ∘ PyStr.lower_char)
               PyStr.lower_char); [done|].
    intros ? x _. apply lower_char_idemp.
  - intros Hc. rewrite !eh_palindromo_unfold, !chars_app.
    change (PyStr.chars (String c s2)) with (c :: PyStr.chars s2).
    rewrite !fmap_app, fmap_cons, !filter_app.
    rewrite filter_cons_False; [done|].
    rewrite lower_char_alfanumerica, Hc. discriminate.
Qed.

End Palindromo.

Section Colchetes.
Import Resolucao.

Lemma pares_lookup (c : ascii) :
  pares !! c
  = if decide (c = "{"%char) then Some "}"%char
    else if decide (c = "["%char) then Some "]"%char
    else if decide (c = "("%char) then Some ")"%char
    else None.
Proof.
  unfold pares. rewrite !lookup_insert, lookup_empty.
  repeat case_decide; congruence.
Qed.

Lemma pares_lookup_par (o c : ascii) :
  pares !! o = Some c ↔ Ref.par_de_colchetes o c.
Proof.
  rewrite pares_lookup. unfold Ref.par_de_colchetes.
  repeat case_decide; subst; split.
  all: try (intros [= <-]; tauto).
  all: try (intros [[? ?] | [[? ?] | [? ?]]]; congruence).
  all: try discriminate.
Qed.

Lemma em_valores_spec (c : ascii) :
  em_valores c = true ↔ c ∈ PyStr.chars ")]}".
Proof.
  unfold em_valores. rewrite bool_decide_eq_true.
  replace ((map_to_list pares).*2) with ["}"; "]"; ")"]%char
    by (vm_compute; reflexivity).
  change (PyStr.chars ")]}") with [")"; "]"; "}"]%char.
  rewrite !elem_of_cons, !elem_of_nil. tauto.
Qed.

Lemma colchete_cases (c : ascii) :
  Ref.colchete c ↔ is_Some (pares !! c) ∨ em_valores c = true.
Proof.
  rewrite em_valores_spec, pares_lookup. unfold Ref.colchete.
  change (PyStr.chars "()[]{}") with ["("; ")"; "["; "]"; "{"; "}"]%char.
  change (PyStr.chars ")]}") with [")"; "]"; "}"]%char.
  rewrite !elem_of_cons, !elem_of_nil.
  repeat case_decide; subst; split; intros Hc.
  all: try (left; by eexists).
  all: try tauto.
  all: try (destruct Hc as [[? [=]] | Hc]; tauto).
Qed.

(** The four ways a round of the loop goes. *)
Lemma loop_abre (o c : ascii) (s pilha : list ascii) :
  pares !! o = Some c →
  balanceamento_loop (o :: s) pilha = balanceamento_loop s (pilha ++ [o]).
Proof.
  intros Ho. simpl. by rewrite bool_decide_eq_true_2 by (by rewrite Ho).
Qed.

Lemma loop_outro (c : ascii) (s pilha : list ascii) :
  ¬ Ref.colchete c →
  balanceamento_loop (c :: s) pilha = balanceamento_loop s pilha.
Proof.
  intros Hc. rewrite colchete_cases in Hc. simpl.
  rewrite bool_decide_eq_false_2 by tauto.
  destruct (em_valores c); [tauto | done].
Qed.

Lemma loop_fecha (c : ascii) (s pilha : list ascii) :
  pares !! c = None → em_valores c = true →
  balanceamento_loop (c :: s) pilha
  = match last pilha with
    | None => Some false
    | Some topo =>
        fecha ← pares !! topo;
        if bool_decide (fecha ≠ c) then Some false
        else balanceamento_loop s (removelast pilha)
    end.
Proof.
  intros Hnone Hval. simpl.
  rewrite bool_decide_eq_false_2 by (rewrite Hnone; by intros [? ?]).
  by rewrite Hval.
Qed.

Lemma fecha_nao_abre (c : ascii) : em_valores c = true → pares !! c = None.
Proof.
  rewrite em_valores_spec, pares_lookup.
  change (PyStr.chars ")]}") with [")"; "]"; "}"]%char.
  rewrite !elem_of_cons, !elem_of_nil.
  intros [-> | [-> | [-> | []]]]; reflexivity.
Qed.

(** While the stack holds opening brackets only, the lookup [pares[topo]]
    finds its key, and the loop returns. *)
Lemma balanceamento_loop_total (s : list ascii) :
  ∀ pilha, Forall (λ o, is_Some (pares !! o)) pilha →
           ∃ b, balanceamento_loop s pilha = Some b.
Proof.
  induction s as [|c s IH]; intros pilha Hp; [by eexists|].
  destruct (pares !! c) as [d|] eqn:Hc.
  - rewrite (loop_abre _ d) by done. apply IH.
    apply Forall_app. split; [done|]. apply Forall_singleton. by rewrite Hc.
  - destruct (em_valores c) eqn:Hv.
    + rewrite loop_fecha by done.
      destruct pilha as [|o pilha _] using rev_ind; [by eexists|].
      rewrite last_snoc, removelast_last.
      apply Forall_app in Hp as [Hp [d Hd]%Forall_singleton].
      rewrite Hd. simpl. case_bool_decide; [by eexists | by apply IH].
    + rewrite loop_outro; [by apply IH|].
      rewrite colchete_cases, Hc, Hv. intros [[? [=]] | [=]].
Qed.

(** A pair of brackets put anywhere in a well-bracketed sequence leaves it
    well bracketed. *)
Lemma balanceada_insert (o c : ascii) (w : list ascii) :
  Ref.par_de_colchetes o c → Ref.balanceada w →
  ∀ u v, w = u ++ v → Ref.balanceada (u ++ o :: c :: v).
Proof.
  intros Hoc Hw.
  assert (Hpair : Ref.balanceada [o; c])
    by (apply (Ref.balanceada_par o c []); [done | apply Ref.balanceada_nil]).
  induction Hw as [|o' c' w' Hoc' Hw' IH|w1 w2 Hw1 IH1 Hw2 IH2];
    intros u v Heq.
  - symmetry in Heq. apply app_eq_nil in Heq as [-> ->]. done.
  - destruct u as [|x u].
    + simpl in *. subst v.
      apply (Ref.balanceada_app [o; c]); [done|].
      by apply Ref.balanceada_par.
    + simpl in Heq. injection Heq as <- Heq.
      destruct v as [|y v _] using rev_ind.
      * rewrite app_nil_r in Heq. subst u.
        change (Ref.balanceada ((o' :: w' ++ [c']) ++ [o; c])).
        apply Ref.balanceada_app; [|done]. by apply Ref.balanceada_par.
      * rewrite app_assoc in Heq. apply app_inj_tail in Heq as [Hw'eq <-].
        replace ((o' :: u) ++ o :: c :: v ++ [c'])
          with (o' :: (u ++ o :: c :: v) ++ [c'])
          by (simpl; by rewrite <- app_assoc).
        apply Ref.balanceada_par; [done|]. by apply IH.
  - apply app_eq_inv in Heq as [(k & -> & ->) | (k & -> & ->)].
    + replace (u ++ o :: c :: k ++ w2) with ((u ++ o :: c :: k) ++ w2)
        by (by rewrite <- app_assoc).
      apply Ref.balanceada_app; [by apply IH1 | done].
    + rewrite <- app_assoc. apply Ref.balanceada_app; [done|]. by apply IH2.
Qed.

Lemma balanceamento_loop_sound (s : list ascii) :
  ∀ pilha, balanceamento_loop s pilha = Some true →
           Ref.balanceada (pilha ++ filter Ref.colchete s).
Proof.
  induction s as [|c s IH]; intros pilha Hrun.
  - simpl in Hrun. injection Hrun as Hlen.
    apply bool_decide_eq_true in Hlen. unfold Py.len in Hlen.
    destruct pilha; [apply Ref.balanceada_nil | simpl in Hlen; lia].
  - destruct (pares !! c) as [d|] eqn:Hc.
    + rewrite (loop_abre _ d) in Hrun by done. apply IH in Hrun.
      rewrite filter_cons_True
        by (apply colchete_cases; left; by rewrite Hc).
      by rewrite <- app_assoc in Hrun.
    + destruct (em_valores c) eqn:Hv.
      * rewrite loop_fecha in Hrun by done.
        rewrite filter_cons_True by (apply colchete_cases; by right).
        destruct pilha as [|o pilha _] using rev_ind; [done|].
        rewrite last_snoc, removelast_last in Hrun.
        destruct (pares !! o) as [d|] eqn:Ho; [|done]. simpl in Hrun.
        case_bool_decide as Hd; [done|]. subst d.
        rewrite <- app_assoc. simpl.
        eapply balanceada_insert; [by apply pares_lookup_par | | done].
        by apply IH.
      * assert (¬ Ref.colchete c) as Hnc
          by (rewrite colchete_cases, Hc, Hv; intros [[? [=]] | [=]]).
        rewrite loop_outro in Hrun by done.
        rewrite filter_cons_False by done. by apply IH.
Qed.

Lemma balanceamento_loop_filter (s : list ascii) :
  ∀ pilha, balanceamento_loop s pilha
           = balanceamento_loop (filter Ref.colchete s) pilha.
Proof.
  induction s as [|c s IH]; intros pilha; [done|].
  destruct (decide (Ref.colchete c)) as [Hc|Hc].
  - rewrite filter_cons_True by done.
    destruct (pares !! c) as [d|] eqn:Ho.
    + rewrite !(loop_abre _ d) by done. apply IH.
    + assert (em_valores c = true) as Hv.
      { apply colchete_cases in Hc as [[? Hs] | ?]; [congruence | done]. }
      rewrite !loop_fecha by done.
      destruct (last pilha); [|done].
      destruct (pares !! a); [simpl|done]. by rewrite IH.
  - rewrite filter_cons_False, loop_outro by done. apply IH.
Qed.

Lemma balanceamento_loop_complete (w : list ascii) :
  Ref.balanceada w →
  ∀ pilha resto,
    balanceamento_loop (w ++ resto) pilha = balanceamento_loop resto pilha.
Proof.
  induction 1 as [|o c w Hoc Hw IH|w1 w2 Hw1 IH1 Hw2 IH2];
    intros pilha resto.
  - done.
  - pose proof Hoc as Hl%pares_lookup_par.
    change ((o :: w ++ [c]) ++ resto) with (o :: (w ++ [c]) ++ resto).
    rewrite (loop_abre _ c) by done.
    rewrite <- app_assoc, IH. simpl app.
    assert (em_valores c = true) as Hv.
    { apply em_valores_spec.
      change (PyStr.chars ")]}") with [")"; "]"; "}"]%char.
      rewrite !elem_of_cons.
      destruct Hoc as [[_ ->] | [[_ ->] | [_ ->]]]; tauto. }
    rewrite loop_fecha by (by try apply fecha_nao_abre).
    rewrite last_snoc, removelast_last, Hl. simpl.
    by rewrite bool_decide_eq_false_2 by (intros Hne; by apply Hne).
  - by rewrite <- app_assoc, IH1, IH2.
Qed.

(** X21: [balanceamento_parenteses] never fails on the lookup [pares[...]],
    and it returns True exactly when the brackets of the expression, taken
    in order and without the other characters, form a well-bracketed
    sequence. *)
Theorem balanceamento_parenteses_correct (expressao : string) :
  ∃ b, balanceamento_parenteses expressao = Some b ∧
       (b = true ↔
        Ref.balanceada (filter Ref.colchete (PyStr.chars expressao))).
Proof.
  unfold balanceamento_parenteses.
  destruct (balanceamento_loop_total (PyStr.chars expressao) [])
    as [b Hb]; [apply Forall_nil_2|].
  exists b. split; [done|]. split.
  - intros ->. by apply balanceamento_loop_sound in Hb.
  - intros Hbal.
    rewrite balanceamento_loop_filter in Hb.
    rewrite <- (app_nil_r (filter _ _)) in Hb.
    rewrite (balanceamento_loop_complete _ Hbal) in Hb.
    simpl in Hb. by injection Hb as <-.
Qed.

(** X22: the other characters do not count: an expression and the same
    expression with a character that is not a bracket inserted anywhere get
    the same answer; and an expression that starts with a closing bracket is
    rejected whatever follows. *)
Theorem balanceamento_parenteses_ignores (s1 s2 : string) (c : ascii) :
  (¬ Ref.colchete c →
   balanceamento_parenteses (s1 +:+ String c s2)
   = balanceamento_parenteses (s1 +:+ s2)) ∧
  (c ∈ PyStr.chars ")]}" →
   balanceamento_parenteses (String c s2) = Some false).
Proof.
  unfold balanceamento_parenteses. split.
  - intros Hc.
    rewrite (balanceamento_loop_filter (PyStr.chars (s1 +:+ String c s2))).
    rewrite (balanceamento_loop_filter (PyStr.chars (s1 +:+ s2))).
    rewrite !chars_app.
    change (PyStr.chars (String c s2)) with (c :: PyStr.chars s2).
    by rewrite !filter_app, filter_cons_False.
  - intros Hc%em_valores_spec.
    change (PyStr.chars (String c s2)) with (c :: PyStr.chars s2).
    by rewrite loop_fecha by (by try apply fecha_nao_abre).
Qed.

End Colchetes.

(** ** The pattern matcher and [validar_email] *)

Section Regex.
Import Re.

Lemma lang_vazio_inv (s : list ascii) : ¬ lang Vazio s.
Proof. inversion 1. Qed.

Lemma lang_eps_inv (s : list ascii) : lang Eps s ↔ s = [].
Proof. split; [by inversion 1 | intros ->; apply lang_eps]. Qed.

Lemma lang_classe_inv (p : ascii → bool) (s : list ascii) :
  lang (Classe p) s ↔ ∃ c, s = [c] ∧ p c = true.
Proof.
  split.
  - inversion 1; subst. by eexists.
  - intros (c & -> & Hc). by apply lang_classe.
Qed.

Lemma lang_cat_inv (r1 r2 : regex) (s : list ascii) :
  lang (Cat r1 r2) s ↔ ∃ s1 s2, s = s1 ++ s2 ∧ lang r1 s1 ∧ lang r2 s2.
Proof.
  split.
  - inversion 1; subst. by eexists _, _.
  - intros (s1 & s2 & -> & H1 & H2). by apply lang_cat.
Qed.

Lemma lang_alt_inv (r1 r2 : regex) (s : list ascii) :
  lang (Alt r1 r2) s ↔ lang r1 s ∨ lang r2 s.
Proof.
  split.
  - inversion 1; subst; tauto.
  - intros [H1 | H2]; [by apply lang_alt_l | by apply lang_alt_r].
Qed.

Lemma lang_estrela_cons_inv (r : regex) (c : ascii) (s : list ascii) :
  lang (Estrela r) (c :: s) →
  ∃ s1 s2, s = s1 ++ s2 ∧ lang r (c :: s1) ∧ lang (Estrela r) s2.
Proof.
  intros Hl. remember (Estrela r) as r' eqn:Hr.
  remember (c :: s) as t eqn:Ht.
  induction Hl as [| | | | | |r0 s1 s2 H1 _ H2 IH2]; try discriminate.
  injection Hr as ->. destruct s1 as [|x s1].
  - simpl in Ht. by apply IH2.
  - simpl in Ht. injection Ht as -> <-. by exists s1, s2.
Qed.

Lemma anulavel_spec (r : regex) : anulavel r = true ↔ lang r [].
Proof.
  induction r as [| |p|r1 IH1 r2 IH2|r1 IH1 r2 IH2|r IH]; simpl.
  - split; [done | by intros ?%lang_vazio_inv].
  - split; [intros _; apply lang_eps | done].
  - split; [done|]. by intros (c & [=] & _)%lang_classe_inv.
  - rewrite andb_true_iff, IH1, IH2, lang_cat_inv. split.
    + intros [H1 H2]. by exists [], [].
    + intros (s1 & s2 & Heq & H1 & H2). symmetry in Heq.
      apply app_eq_nil in Heq as [-> ->]. done.
  - by rewrite orb_true_iff, IH1, IH2, lang_alt_inv.
  - split; [intros _; apply lang_estrela_nil | done].
Qed.

Lemma derivada_spec (c : ascii) (r : regex) :
  ∀ s, lang (derivada c r) s ↔ lang r (c :: s).
Proof.
  induction r as [| |p|r1 IH1 r2 IH2|r1 IH1 r2 IH2|r IH]; intros s; simpl.
  - split; by intros ?%lang_vazio_inv.
  - split; [by intros ?%lang_vazio_inv | by intros [=]%lang_eps_inv].
  - rewrite lang_classe_inv. destruct (p c) eqn:Hp.
    + rewrite lang_eps_inv. split.
      * intros ->. by exists c.
      * by intros (c' & [= <- ->] & _).
    + split; [by intros ?%lang_vazio_inv|].
      intros (c' & [= <- ->] & Hp'). congruence.
  - assert (lang (Cat (derivada c r1) r2) s ↔
            ∃ s1 s2, s = s1 ++ s2 ∧ lang r1 (c :: s1) ∧ lang r2 s2) as Hcat.
    { rewrite lang_cat_inv. split;
        intros (s1 & s2 & -> & H1 & H2); exists s1, s2; by rewrite IH1 in *. }
    rewrite (lang_cat_inv r1 r2 (c :: s)).
    destruct (anulavel r1) eqn:Hn.
    + rewrite lang_alt_inv, Hcat, IH2. apply anulavel_spec in Hn. split.
      * intros [(s1 & s2 & -> & H1 & H2) | H2].
        -- by exists (c :: s1), s2.
        -- by exists [], (c :: s).
      * intros (t1 & t2 & Heq & H1 & H2). destruct t1 as [|x t1].
        -- simpl in Heq. subst t2. by right.
        -- simpl in Heq. injection Heq as <- ->. left. by exists t1, t2.
    + rewrite Hcat. split.
      * intros (s1 & s2 & -> & H1 & H2). by exists (c :: s1), s2.
      * intros (t1 & t2 & Heq & H1 & H2). destruct t1 as [|x t1].
        -- apply anulavel_spec in H1. congruence.
        -- simpl in Heq. injection Heq as <- ->. by exists t1, t2.
  - by rewrite !lang_alt_inv, IH1, IH2.
  - rewrite lang_cat_inv. split.
    + intros (s1 & s2 & -> & H1 & H2). apply IH in H1.
      by apply (lang_estrela_cons r (c :: s1) s2).
    + intros (s1 & s2 & -> & H1 & H2)%lang_estrela_cons_inv.
      exists s1, s2. by rewrite IH.
Qed.

(** [coincide] decides the language of the pattern. *)
Lemma coincide_spec (s : list ascii) : ∀ r, coincide r s = true ↔ lang r s.
Proof.
  induction s as [|c s IH]; intros r; simpl.
  - apply anulavel_spec.
  - by rewrite IH, derivada_spec.
Qed.

Lemma lang_estrela_classe (p : ascii → bool) (s : list ascii) :
  lang (Estrela (Classe p)) s ↔ Forall (λ c, p c = true) s.
Proof.
  split.
  - induction s as [|c s IH]; intros Hl; [apply Forall_nil_2|].
    apply lang_estrela_cons_inv in Hl as (s1 & s2 & -> & H1 & H2).
    apply lang_classe_inv in H1 as (c' & [= <- ->] & Hp).
    apply Forall_cons. split; [done|]. by apply IH.
  - induction 1 as [|c s Hc _ IH]; [apply lang_estrela_nil|].
    apply (lang_estrela_cons _ [c] s); [by apply lang_classe | done].
Qed.

Lemma lang_mais_classe (p : ascii → bool) (s : list ascii) :
  lang (mais (Classe p)) s ↔ s ≠ [] ∧ Forall (λ c, p c = true) s.
Proof.
  unfold mais. rewrite lang_cat_inv. split.
  - intros (s1 & s2 & -> & (c & -> & Hc)%lang_classe_inv & H2%lang_estrela_classe).
    split; [done|]. by apply Forall_cons.
  - intros [Hne Hall]. destruct s as [|c s]; [done|].
    apply Forall_cons in Hall as [Hc Hall].
    exists [c], s. split; [done|].
    split; [by apply lang_classe | by apply lang_estrela_classe].
Qed.

Lemma lang_pelo_menos_2_classe (p : ascii → bool) (s : list ascii) :
  lang (pelo_menos_2 (Classe p)) s
  ↔ (2 <= length s)%nat ∧ Forall (λ c, p c = true) s.
Proof.
  unfold pelo_menos_2. rewrite lang_cat_inv. split.
  - intros (s1 & s2 & -> & (c & -> & Hc)%lang_classe_inv
            & [Hne Hall]%lang_mais_classe).
    split; [|by apply Forall_cons].
    destruct s2; [done | simpl; lia].
  - intros [Hlen Hall]. destruct s as [|c [|c' s]]; simpl in Hlen; try lia.
    apply Forall_cons in Hall as [Hc Hall].
    exists [c], (c' :: s). split; [done|].
    split; [by apply lang_classe|]. by apply lang_mais_classe.
Qed.

Lemma match_ancorado_spec (r : regex) (s : list ascii) :
  match_ancorado r s = true ↔
  lang r s ∨ ∃ s', s = s' ++ [ascii_of_nat 10] ∧ lang r s'.
Proof.
  unfold match_ancorado. rewrite orb_true_iff, coincide_spec.
  apply or_iff_compat_l.
  destruct s as [|c s _] using rev_ind.
  - simpl. split; [done|]. intros (s' & Heq & _). by destruct s'.
  - rewrite last_snoc, removelast_last, andb_true_iff.
    rewrite bool_decide_eq_true, coincide_spec. split.
    + intros [-> Hl]. by exists s.
    + intros (s' & [-> <-]%app_inj_tail & Hl). done.
Qed.

End Regex.

Section Email.
Import Resolucao.

Lemma lang_padrao_email (s : list ascii) :
  Re.lang padrao_email s ↔ Ref.endereco s.
Proof.
  unfold padrao_email, Ref.endereco.
  rewrite lang_cat_inv. split.
  - intros (u & s1 & -> & [Hu1 Hu2]%lang_mais_classe & Hs1).
    apply lang_cat_inv in Hs1 as (a & s2 & -> & Ha & Hs2).
    apply lang_classe_inv in Ha as (c & -> & Hc).
    apply bool_decide_eq_true in Hc as ->.
    apply lang_cat_inv in Hs2 as (d & s3 & -> & [Hd1 Hd2]%lang_mais_classe & Hs3).
    apply lang_cat_inv in Hs3 as (p & t & -> & Hp & [Ht1 Ht2]%lang_pelo_menos_2_classe).
    apply lang_classe_inv in Hp as (c & -> & Hc).
    apply bool_decide_eq_true in Hc as ->.
    by exists u, d, t.
  - intros (u & d & t & -> & Hu1 & Hu2 & Hd1 & Hd2 & Ht1 & Ht2).
    exists u, ("@"%char :: d ++ "."%char :: t). split; [done|].
    split; [by apply lang_mais_classe|].
    apply (Re.lang_cat _ _ ["@"%char]); [by apply Re.lang_classe|].
    apply Re.lang_cat; [by apply lang_mais_classe|].
    apply (Re.lang_cat _ _ ["."%char]); [by apply Re.lang_classe|].
    by apply lang_pelo_menos_2_classe.
Qed.

Lemma validar_email_spec (email : string) :
  validar_email email = true ↔
  Ref.endereco (PyStr.chars email) ∨
  ∃ s', PyStr.chars email = s' ++ [ascii_of_nat 10] ∧ Ref.endereco s'.
Proof.
  unfold validar_email. rewrite match_ancorado_spec, lang_padrao_email.
  apply or_iff_compat_l. split; intros (s' & Heq & Hs'); exists s';
    by rewrite lang_padrao_email in *.
Qed.

(** X23: [validar_email] accepts exactly the texts made of a non-empty local
    part of letters, digits and [._%+-], an at sign, a non-empty domain of
    letters, digits, dots and hyphens, a dot and at least two letters, and
    the same texts followed by one newline, which [$] lets through. *)
Theorem validar_email_correct (email : string) :
  validar_email email = true ↔
  Ref.endereco (PyStr.chars email) ∨
  ∃ s', PyStr.chars email = s' ++ [ascii_of_nat 10] ∧ Ref.endereco s'.
Proof.
  split.
  - intros Hv. by apply validar_email_spec.
  - intros Hs. by apply validar_email_spec.
Qed.

Lemma filter_eq_none (p : ascii → bool) (x : ascii) (l : list ascii) :
  Forall (λ c, p c = true) l → p x = false →
  filter (λ y, y = x) l = [].
Proof.
  intros Hall Hx. induction Hall as [|c l Hc _ IH]; [done|].
  rewrite filter_cons_False; [done|]. intros ->. congruence.
Qed.

Lemma endereco_arroba (s : list ascii) :
  Ref.endereco s →
  Ref.occurrences "@"%char s = 1 ∧ (6 <= length s)%nat ∧
  last s ≠ Some (ascii_of_nat 10).
Proof.
  intros (u & d & t & -> & Hu1 & Hu2 & Hd1 & Hd2 & Ht1 & Ht2).
  split; [|split].
  - unfold Ref.occurrences.
    rewrite filter_app, filter_cons_True by done.
    rewrite filter_app, filter_cons_False by done.
    rewrite (filter_eq_none classe_usuario) by done.
    rewrite (filter_eq_none classe_dominio) by done.
    rewrite (filter_eq_none classe_letra) by done. done.
  - rewrite length_app. simpl. rewrite length_app. simpl.
    destruct u; [done|]. destruct d; [done|]. simpl. lia.
  - destruct t as [|c t _] using rev_ind; [simpl in Ht1; lia|].
    replace (u ++ "@"%char :: d ++ "."%char :: t ++ [c])
      with ((u ++ "@"%char :: d ++ "."%char :: t) ++ [c])
      by (rewrite <- app_assoc; simpl; by rewrite <- app_assoc).
    rewrite last_snoc. intros [= ->].
    rewrite Forall_app, Forall_singleton in Ht2. destruct Ht2 as [_ Hc].
    vm_compute in Hc. discriminate.
Qed.

(** X24: a text accepted by [validar_email] holds exactly one at sign and at
    least six characters; and when it does not end with a newline, the text
    followed by a newline is accepted too. *)
Theorem validar_email_accepted (email : string) :
  validar_email email = true →
  Ref.occurrences "@"%char (PyStr.chars email) = 1 ∧
  6 <= PyStr.len email ∧
  (last (PyStr.chars email) ≠ Some (ascii_of_nat 10) →
   validar_email (email +:+ String (ascii_of_nat 10) EmptyString) = true).
Proof.
  intros Hv. apply validar_email_spec in Hv.
  rewrite len_chars. unfold Py.len.
  destruct Hv as [He | (s' & Heq & He)].
  - destruct (endereco_arroba _ He) as (Hat & Hlen & _).
    split; [done|]. split; [lia|]. intros _.
    apply validar_email_spec. right.
    exists (PyStr.chars email). by rewrite chars_app.
  - destruct (endereco_arroba _ He) as (Hat & Hlen & _).
    rewrite Heq. split; [|split].
    + unfold Ref.occurrences in *.
      rewrite filter_app, filter_cons_False by done.
      by rewrite app_nil_r.
    + rewrite length_app. simpl. lia.
    + rewrite last_snoc. done.
Qed.

Lemma validar_email_accepted_witness :
  validar_email "a@b.cd" = true ∧
  Ref.occurrences "@"%char (PyStr.chars "a@b.cd") = 1 ∧
  6 <= PyStr.len "a@b.cd" ∧
  (last (PyStr.chars "a@b.cd") ≠ Some (ascii_of_nat 10) →
   validar_email ("a@b.cd" +:+ String (ascii_of_nat 10) EmptyString) = true).
Proof.
  split; [reflexivity|].
  apply (validar_email_accepted "a@b.cd"). reflexivity.
Defined.

End Email.

(** * The password check on every [str] *)

Section SenhaUnicode.
Import Resolucao.

Lemma entre_spec (lo hi c : Z) :
  Unicode.entre lo hi c = true ↔ lo <= c <= hi.
Proof. unfold Unicode.entre. apply bool_decide_eq_true. Qed.

Lemma unicode_re_search_spec (classe : Z → bool) (s : list Z) :
  Unicode.re_search classe s = true ↔ ∃ c, c ∈ s ∧ classe c = true.
Proof.
  unfold Unicode.re_search. rewrite existsb_exists.
  split; intros (c & Hc & Hcl); exists c; by rewrite list_elem_of_In in *.
Qed.

(** What the five tests leave in [problemas], for each outcome of the
    tests. *)
Lemma validar_senha_forte_unicode_cases (digito_decimal : Z → bool)
    (senha : list Z) :
  let b1 := bool_decide (Py.len senha < 8) in
  let b2 := negb (Unicode.re_search (Unicode.entre 65 90) senha) in
  let b3 := negb (Unicode.re_search (Unicode.entre 97 122) senha) in
  let b4 := negb (Unicode.re_search digito_decimal senha) in
  let b5 := negb (Unicode.re_search ResolucaoUnicode.classe_especial senha) in
  let r := ResolucaoUnicode.validar_senha_forte digito_decimal senha in
  (r.1 = true ↔ r.2 = []) ∧
  r.2 `sublist_of` Ref.razoes ∧
  (msg_minimo ∈ r.2 ↔ b1 = true) ∧
  (msg_maiuscula ∈ r.2 ↔ b2 = true) ∧
  (msg_minuscula ∈ r.2 ↔ b3 = true) ∧
  (msg_numero ∈ r.2 ↔ b4 = true) ∧
  (msg_especial ∈ r.2 ↔ b5 = true).
Proof.
  intros b1 b2 b3 b4 b5 r. subst r.
  unfold ResolucaoUnicode.validar_senha_forte.
  fold b1 b2 b3 b4 b5. clearbody b1 b2 b3 b4 b5.
  destruct b1, b2, b3, b4, b5; simpl;
    (split; [|split];
     [ apply (bool_decide_unpack _); vm_compute; exact I
     | unfold Ref.razoes;
       repeat first [apply sublist_nil | apply sublist_skip | apply sublist_cons]
     | repeat split; apply (bool_decide_unpack _); vm_compute; exact I ]).
Qed.

(** C7: for every string, given as the sequence of its code points, and
    whatever the table of decimal digits of the class [\d] holds,
    [validar_senha_forte(s)] returns a flag that is true exactly when the
    list of reasons is empty; the reasons come in the fixed order (minimum
    length 8, uppercase letter, lowercase letter, digit, special character),
    and each one is in the list exactly when its check fails. *)
Theorem validar_senha_forte_correct (digito_decimal : Z → bool)
    (senha : list Z) :
  let r := ResolucaoUnicode.validar_senha_forte digito_decimal senha in
  (r.1 = true ↔ r.2 = []) ∧
  r.2 `sublist_of` Ref.razoes ∧
  (msg_minimo ∈ r.2 ↔ Py.len senha < 8) ∧
  (msg_maiuscula ∈ r.2 ↔ ¬ ∃ c, c ∈ senha ∧ 65 <= c <= 90) ∧
  (msg_minuscula ∈ r.2 ↔ ¬ ∃ c, c ∈ senha ∧ 97 <= c <= 122) ∧
  (msg_numero ∈ r.2 ↔ ¬ ∃ c, c ∈ senha ∧ digito_decimal c = true) ∧
  (msg_especial ∈ r.2 ↔
     ¬ ∃ c, c ∈ senha ∧ c ∈ ResolucaoUnicode.especiais).
Proof.
  intros r. subst r.
  destruct (validar_senha_forte_unicode_cases digito_decimal senha)
    as (Hflag & Hsub & H1 & H2 & H3 & H4 & H5).
  cbv zeta in *.
  split; [exact Hflag|]. split; [exact Hsub|].
  rewrite bool_decide_eq_true in H1. split; [exact H1|].
  split; [|split; [|split]].
  - rewrite H2. apply negb_true_not. rewrite unicode_re_search_spec.
    split; intros (c & Hc & Hcl); exists c; by rewrite entre_spec in *.
  - rewrite H3. apply negb_true_not. rewrite unicode_re_search_spec.
    split; intros (c & Hc & Hcl); exists c; by rewrite entre_spec in *.
  - rewrite H4. apply negb_true_not. apply unicode_re_search_spec.
  - rewrite H5. apply negb_true_not. rewrite unicode_re_search_spec.
    unfold ResolucaoUnicode.classe_especial.
    split; intros (c & Hc & Hcl); exists c; by rewrite bool_decide_eq_true in *.
Qed.

(** A decimal digit of another script counts as a digit: with a table that
    holds the Arabic-Indic digits 1632..1641, the eight letters and signs
    Abcdefg! followed by the digit three (1635) form a valid password. *)
Lemma validar_senha_forte_arabic_digit :
  ResolucaoUnicode.validar_senha_forte
    (λ c, Unicode.entre 48 57 c || Unicode.entre 1632 1641 c)
    (Unicode.de_string "Abcdefg!" ++ [1635])
  = (true, []).
Proof. vm_compute. reflexivity. Qed.

(** Below code point 256 the classes of the two embeddings agree. *)
Lemma codigo_classes (c : ascii) :
  Unicode.entre 65 90 (Unicode.codigo c) = PyStr.classe_maiuscula c ∧
  Unicode.entre 97 122 (Unicode.codigo c) = PyStr.classe_minuscula c ∧
  Unicode.entre 48 57 (Unicode.codigo c) = PyStr.classe_digito c ∧
  ResolucaoUnicode.classe_especial (Unicode.codigo c) = classe_especial c.
Proof.
  destruct c as [[] [] [] [] [] [] [] []]; vm_compute; repeat split.
Qed.

Lemma codigo_range (c : ascii) : 0 <= Unicode.codigo c < 256.
Proof.
  unfold Unicode.codigo. pose proof (nat_ascii_bounded c). lia.
Qed.

Lemma re_search_de_string (f : Z → bool) (g : ascii → bool) (s : string) :
  (∀ c, f (Unicode.codigo c) = g c) →
  Unicode.re_search f (Unicode.de_string s) = PyStr.re_search g s.
Proof.
  intros Hfg. unfold Unicode.re_search, Unicode.de_string, PyStr.re_search.
  induction (PyStr.chars s) as [|c l IH]; [done|].
  rewrite fmap_cons. simpl. by rewrite Hfg, IH.
Qed.

(** On a text of characters below code point 256, and with a table of
    digits that holds 0..9 and nothing else in that range, the check on code
    points is the check on the characters. *)
Lemma validar_senha_forte_de_string (digito_decimal : Z → bool)
    (senha : string) :
  (∀ c, 0 <= c < 256 → digito_decimal c = Unicode.entre 48 57 c) →
  ResolucaoUnicode.validar_senha_forte digito_decimal
    (Unicode.de_string senha)
  = validar_senha_forte senha.
Proof.
  intros Hd.
  unfold ResolucaoUnicode.validar_senha_forte, validar_senha_forte.
  replace (Py.len (Unicode.de_string senha)) with (PyStr.len senha)
    by (rewrite len_chars; unfold Py.len, Unicode.de_string;
        by rewrite length_fmap).
  rewrite (re_search_de_string (Unicode.entre 65 90) PyStr.classe_maiuscula)
    by (intros c; by destruct (codigo_classes c) as (? & ? & ? & ?)).
  rewrite (re_search_de_string (Unicode.entre 97 122) PyStr.classe_minuscula)
    by (intros c; by destruct (codigo_classes c) as (? & ? & ? & ?)).
  rewrite (re_search_de_string digito_decimal PyStr.classe_digito)
    by (intros c; rewrite Hd by apply codigo_range;
        by destruct (codigo_classes c) as (? & ? & ? & ?)).
  rewrite (re_search_de_string ResolucaoUnicode.classe_especial
             classe_especial)
    by (intros c; by destruct (codigo_classes c) as (? & ? & ? & ?)).
  done.
Qed.

End SenhaUnicode.
